(** * Rate limiting middlewares of the story API, checked against the
      rate-limiter specification

    The repository ships two Express middlewares that throttle requests per
    client address with a Redis server as shared state:

    - [rateLimitMiddleware] (services/rateLimiterService.ts): one integer
      counter per address, created with a 60 second expiry and bumped with
      INCR;
    - [rateLimiterMiddleware] (middlewares/rateLimiterMiddleware.ts): one
      JSON list of [{timeStamp, requestCount}] entries per address, rewritten
      with a 60 second expiry on every admitted request.

    Both are embedded below as pure functions from the store to an outcome
    and a new store.  Time is [Date.now()], in milliseconds.  An invocation
    has two instants: the one at which Redis answers its GET, and the later
    one at which its callback runs and the write it issues reaches Redis. *)

From Stdlib Require Import ZArith Lia.
From stdpp Require Import base option list gmap strings pretty.

Local Open Scope Z_scope.

(** ** What a middleware invocation can do *)

(** Exceptions that escape a callback: the error object handed over by the
    Redis client ([throw err]) or the [TypeError] raised by JavaScript when a
    property of [undefined] is read. *)
Inductive exn :=
  | RedisError (msg : string)
  | TypeError (msg : string).

(** [Next] is the call [next()], [Json st body] is
    [res.status(st).json(body)] with the body as its list of fields, and
    [Throw e] an exception leaving the callback. *)
Inductive outcome :=
  | Next
  | Json (status : Z) (body : list (string * string))
  | Throw (e : exn).

Definition admitted (o : outcome) : bool :=
  match o with Next => true | _ => false end.

Definition rejected (o : outcome) : bool :=
  match o with Json 429 _ => true | _ => false end.

(** Field [k] of the JSON body sent to the client, if any. *)
Fixpoint field (k : string) (body : list (string * string)) : option string :=
  match body with
  | [] => None
  | (k', v) :: rest => if decide (k' = k) then Some v else field k rest
  end.

Definition json_field (k : string) (o : outcome) : option string :=
  match o with
  | Json _ body => field k body
  | _ => None
  end.

(** ** The Redis server *)

(** The store is an external collaborator.  Its three commands used by the
    middlewares are modelled as Redis documents them: a key holds a value and
    possibly a deadline; [SET k v EX n] overwrites the value and sets the
    deadline [n] seconds ahead; a key is served up to and including its
    deadline and is gone once the clock is past it; [GET] answers nil for a
    key that is missing or gone; [INCR] adds one to a live integer and keeps
    its deadline, and creates a missing or gone key as [1] without deadline.
    Values are kept decoded: the decimal string of the counter is its integer,
    the JSON text of the list is the list. *)
Module Redis.

Record slot (V : Type) := Slot { value : V; deadline : option Z }.
Arguments Slot {V} _ _.
Arguments value {V} _.
Arguments deadline {V} _.

Section Commands.
Context {V : Type}.

Definition live (now : Z) (e : slot V) : bool :=
  match deadline e with
  | None => true
  | Some d => bool_decide (now ≤ d)
  end.

Definition get (key : string) (now : Z) (db : gmap string (slot V)) : option V :=
  match db !! key with
  | Some e => if live now e then Some (value e) else None
  | None => None
  end.

Definition set_ex (key : string) (v : V) (seconds : Z) (now : Z)
    (db : gmap string (slot V)) : gmap string (slot V) :=
  <[key := Slot v (Some (now + seconds * 1000))]> db.

(** What the client passes to the callback of [get]: [(err, reply)].  A
    failing link yields the error and no reply. *)
Definition get_reply (link : option exn) (key : string) (now : Z)
    (db : gmap string (slot V)) : option exn * option V :=
  match link with
  | Some e => (Some e, None)
  | None => (None, get key now db)
  end.
End Commands.

Definition incr (key : string) (now : Z) (db : gmap string (slot Z)) : gmap string (slot Z) :=
  match db !! key with
  | Some e =>
      if live now e then <[key := Slot (value e + 1) (deadline e)]> db
      else <[key := Slot 1 None]> db
  | None => <[key := Slot 1 None]> db
  end.

End Redis.

(** ** services/rateLimiterService.ts: the counter limiter *)

Module Counter.

Definition requestLimits : Z := 10.
Definition ttl : Z := 60.

Definition too_many : outcome :=
  Json 429 [("message", "Too many requests. Please try again later.")].

(** The callback given to [redisClient.get(ip, ...)]. *)
Definition callback (ip : string) (now : Z) (err : option exn) (record : option Z)
    (db : gmap string (Redis.slot Z)) : outcome * gmap string (Redis.slot Z) :=
  match err with
  | Some e => (Throw e, db)
  | None =>
      match record with
      | None => (Next, Redis.set_ex ip 1 ttl now db)
      | Some requestCount =>
          if bool_decide (requestCount >= requestLimits) then (too_many, db)
          else (Next, Redis.incr ip now db)
      end
  end.

(** The GET is answered at [asked]; the callback runs, and its SET or INCR
    lands, at [now].  [currentTime] is computed by the source and never
    used. *)
Definition rateLimitMiddleware (ip : string) (asked now : Z) (link : option exn)
    (db : gmap string (Redis.slot Z)) : outcome * gmap string (Redis.slot Z) :=
  let currentTime := asked / 1000 in
  let '(err, record) := Redis.get_reply link ip asked db in
  callback ip now err record db.

End Counter.

(** ** middlewares/rateLimiterMiddleware.ts: the list limiter *)

Module Log.

Record entry := Entry { timeStamp : Z; requestCount : Z }.

Definition rateLimitWindow : Z := 60.
Definition maxRequests : Z := 10.

Definition exceeded : outcome :=
  Json 429 [("message",
    "You have exceeded the " +:+ pretty maxRequests +:+ " requests in "
      +:+ pretty rateLimitWindow +:+ " seconds limit!")].

(** [data.filter(entry => entry.timeStamp > windowStartTimestamp)] *)
Definition within (windowStartTimestamp : Z) (data : list entry) : list entry :=
  filter (λ e, timeStamp e > windowStartTimestamp) data.

(** [reduce((accumulator, entry) => accumulator + entry.requestCount, 0)] *)
Definition total (l : list entry) : Z :=
  foldl (λ accumulator e, accumulator + requestCount e) 0 l.

(** [lastRequestLog.requestCount++]: the object is the last element of the
    array that is written back, so the array is updated at that index. *)
Definition bump (e : entry) : entry := Entry (timeStamp e) (requestCount e + 1).

(** The array serialised by the admitting branch: the last entry counts one
    more when it is less than a second old, else a new entry is pushed. *)
Definition log_request (currentRequestTime : Z) (requestsWithinWindow : list entry)
    (lastRequestLog : entry) : list entry :=
  if bool_decide (timeStamp lastRequestLog > currentRequestTime - 1000)
  then alter bump (length requestsWithinWindow - 1)%nat requestsWithinWindow
  else requestsWithinWindow ++ [Entry currentRequestTime 1].

(** The callback given to [redisClient.get(userIP, ...)]. *)
Definition callback (userIP : string) (now : Z) (err : option exn)
    (record : option (list entry)) (db : gmap string (Redis.slot (list entry)))
    : outcome * gmap string (Redis.slot (list entry)) :=
  match err with
  | Some e => (Throw e, db)
  | None =>
      let currentRequestTime := now in
      match record with
      | None =>
          let newRecord := [Entry currentRequestTime 1] in
          (Next, Redis.set_ex userIP newRecord rateLimitWindow now db)
      | Some data =>
          let windowStartTimestamp := currentRequestTime - rateLimitWindow * 1000 in
          let requestsWithinWindow := within windowStartTimestamp data in
          let totalWindowRequests := total requestsWithinWindow in
          if bool_decide (totalWindowRequests >= maxRequests) then (exceeded, db)
          else
            match last requestsWithinWindow with
            | None =>
                (* requestsWithinWindow[-1] is undefined *)
                (Throw (TypeError "Cannot read properties of undefined (reading 'timeStamp')"), db)
            | Some lastRequestLog =>
                let written :=
                  log_request currentRequestTime requestsWithinWindow lastRequestLog in
                (Next, Redis.set_ex userIP written rateLimitWindow now db)
            end
      end
  end.

(** The GET is answered at [asked]; the callback runs, reads [Date.now()]
    and has its SET land at [now]. *)
Definition rateLimiterMiddleware (userIP : string) (asked now : Z) (link : option exn)
    (db : gmap string (Redis.slot (list entry)))
    : outcome * gmap string (Redis.slot (list entry)) :=
  let '(err, record) := Redis.get_reply link userIP asked db in
  callback userIP now err record db.

End Log.

(** ** Serving requests *)

(** One request of the address under study: the instant its GET is answered,
    the clock when its callback runs, and the state of the link to Redis. *)
Record arrival := Arrival { asked : Z; clock : Z; link : option exn }.

(** A request whose callback runs at the instant its GET is answered. *)
Definition at_ (t : Z) : arrival := Arrival t t None.

Section Serving.
Context {Store : Type}.
Variable middleware : string → Z → Z → option exn → Store → outcome * Store.

(** Requests handled one after the other, each callback finishing before
    the next GET is issued. *)
Fixpoint serve (ip : string) (reqs : list arrival) (db : Store) : list outcome * Store :=
  match reqs with
  | [] => ([], db)
  | r :: reqs' =>
      let '(o, db') := middleware ip (asked r) (clock r) (link r) db in
      let '(os, db'') := serve ip reqs' db' in
      (o :: os, db'')
  end.
End Serving.

Definition admissions (os : list outcome) : nat :=
  length (filter (λ o, admitted o = true) os).

(** Requests whose GET is answered. *)
Definition healthy (reqs : list arrival) : nat :=
  length (filter (λ r, link r = None) reqs).

(** Requests in flight together.  Node runs each callback to completion, but
    the GET of one request and its callback are separate events: other
    requests may issue their GET, or run their callback, in between. *)
Inductive task (V : Type) :=
  | Queued
  | Replied (err : option exn) (record : option V)
  | Finished (o : outcome).
Arguments Queued {V}.
Arguments Replied {V} _ _.
Arguments Finished {V} _.

Section Interleaving.
Context {V : Type}.
Variable callback : string → Z → option exn → option V →
  gmap string (Redis.slot V) → outcome * gmap string (Redis.slot V).

Definition advance (ip : string) (now : Z) (i : nat)
    (cfg : list (task V) * gmap string (Redis.slot V))
    : list (task V) * gmap string (Redis.slot V) :=
  let '(tasks, db) := cfg in
  match tasks !! i with
  | Some Queued =>
      let '(err, record) := Redis.get_reply None ip now db in
      (<[i := Replied err record]> tasks, db)
  | Some (Replied err record) =>
      let '(o, db') := callback ip now err record db in
      (<[i := Finished o]> tasks, db')
  | _ => cfg
  end.

Definition interleave (ip : string) (now : Z) (schedule : list nat)
    (cfg : list (task V) * gmap string (Redis.slot V))
    : list (task V) * gmap string (Redis.slot V) :=
  foldl (λ c i, advance ip now i c) cfg schedule.

Definition task_admitted (t : task V) : bool :=
  match t with Finished o => admitted o | _ => false end.

Definition finished_admitted (tasks : list (task V)) : nat :=
  length (filter (λ t, task_admitted t = true) tasks).
End Interleaving.

(** Fixtures for the concrete runs below. *)
Definition client : string := "203.0.113.7".
Definition burst (n : nat) (t : Z) : list arrival := replicate n (at_ t).

(** ** Invariants of runs *)

(** Both instants of a request lie in the closed interval from [a] to [b],
    the GET first. *)
Definition in_window (a b : Z) (r : arrival) : Prop := a ≤ asked r ≤ clock r ≤ b.

(** No record of [ip] outlives the instant [D]. *)
Definition expires_by {V : Type} (ip : string) (D : Z) (db : gmap string (Redis.slot V)) : Prop :=
  match db !! ip with
  | None => True
  | Some e => ∃ d, Redis.deadline e = Some d ∧ d ≤ D
  end.

(** Counter limiter, after [k] admissions with clocks between [a] and [b],
    starting without a live record at [a]: the counter is [k] and expires
    [ttl] seconds after some instant of the interval. *)
Definition counter_inv (ip : string) (a b : Z) (k : nat) (db : gmap string (Redis.slot Z)) : Prop :=
  match k with
  | O => Redis.get ip a db = None
  | S _ => ∃ d, db !! ip = Some (Redis.Slot (Z.of_nat k) (Some d)) ∧
                a + Counter.ttl * 1000 ≤ d ≤ b + Counter.ttl * 1000
  end.

(** List limiter, same situation: the entries are stamped from [a] on, their
    counts add up to [k], and the list is not empty. *)
Definition log_inv (ip : string) (a b : Z) (k : nat)
    (db : gmap string (Redis.slot (list Log.entry))) : Prop :=
  match k with
  | O => Redis.get ip a db = None
  | S _ => ∃ l d, db !! ip = Some (Redis.Slot l (Some d)) ∧
                  a + Log.rateLimitWindow * 1000 ≤ d ≤ b + Log.rateLimitWindow * 1000 ∧
                  is_Some (last l) ∧
                  Forall (λ e, a ≤ Log.timeStamp e) l ∧
                  Log.total l = Z.of_nat k
  end.

(** ** controllers/storyController.ts of the list-limiter application *)

(** The stories live in a module-level array.  [title] and [content] are
    whatever JSON values the request body holds, of a type [V] left open;
    [parseInt], a JavaScript built-in, is a parameter, with [None] for NaN. *)
Module Stories.

Record story (V : Type) := Story { id : Z; title : V; content : V }.
Arguments Story {V} _ _ _.
Arguments id {V} _.
Arguments title {V} _.
Arguments content {V} _.

(** [res.status(st).json(story)], and [res.status(st).send(text)] with or
    without a text. *)
Inductive reply (V : Type) :=
  | SendJson (status : Z) (body : story V)
  | Send (status : Z) (text : option string).
Arguments SendJson {V} _ _.
Arguments Send {V} _ _.

(** What the router dispatches on: POST /, PUT /:id and DELETE /:id. *)
Inductive call (V : Type) :=
  | Post (title content : V)
  | Put (id : string) (title content : V)
  | Delete (id : string).
Arguments Post {V} _ _.
Arguments Put {V} _ _ _.
Arguments Delete {V} _.

Section Controller.
Context {V : Type}.
Variable parseInt : string → option Z.

Definition createStory (title content : V) (stories : list (story V))
    : reply V * list (story V) :=
  let newStory := Story (Z.of_nat (length stories) + 1) title content in
  (SendJson 201 newStory, stories ++ [newStory]).

(** [stories.findIndex(story => story.id === wanted)]: the first position
    that matches, here together with the story found there; [None] is the
    answer -1.  Nothing is identical to NaN. *)
Definition findIndex (wanted : option Z) (stories : list (story V))
    : option (nat * story V) :=
  list_find (λ s, Some (id s) = wanted) stories.

Definition updateStory (idParam : string) (title content : V) (stories : list (story V))
    : reply V * list (story V) :=
  match findIndex (parseInt idParam) stories with
  | None => (Send 404 (Some "Story not found"), stories)
  | Some (storyIndex, old) =>
      let updated := Story (id old) title content in
      (SendJson 200 updated, <[storyIndex := updated]> stories)
  end.

Definition deleteStory (idParam : string) (stories : list (story V))
    : reply V * list (story V) :=
  match findIndex (parseInt idParam) stories with
  | None => (Send 404 (Some "Story not found"), stories)
  | Some (storyIndex, _) => (Send 204 None, delete storyIndex stories)
  end.

Definition dispatch (c : call V) (stories : list (story V)) : reply V * list (story V) :=
  match c with
  | Post title content => createStory title content stories
  | Put idParam title content => updateStory idParam title content stories
  | Delete idParam => deleteStory idParam stories
  end.

(** Calls that reach the controller, one after the other. *)
Fixpoint perform (calls : list (call V)) (stories : list (story V))
    : list (reply V) * list (story V) :=
  match calls with
  | [] => ([], stories)
  | c :: calls' =>
      let '(r, stories') := dispatch c stories in
      let '(rs, stories'') := perform calls' stories' in
      (r :: rs, stories'')
  end.
End Controller.

Definition ids {V : Type} (stories : list (story V)) : list Z := id <$> stories.

(** The ids are 1, 2, ... in array order. *)
Definition numbered {V : Type} (stories : list (story V)) : Prop :=
  ids stories = (λ i, Z.of_nat i + 1) <$> seq 0 (length stories).

Definition is_delete {V : Type} (c : call V) : bool :=
  match c with Delete _ => true | _ => false end.

End Stories.

(** ** controllers/storyController.ts of the counter-limiter application *)

(** The three controllers only acknowledge. *)
Module Stubs.

Definition createStory : string := "Story created".
Definition updateStory : string := "Story updated".
Definition deleteStory : string := "Story deleted".

Definition dispatch {V : Type} (c : Stories.call V) (_ : unit) : string * unit :=
  match c with
  | Stories.Post _ _ => (createStory, ())
  | Stories.Put _ _ _ => (updateStory, ())
  | Stories.Delete _ => (deleteStory, ())
  end.

End Stubs.

(** ** routes/storyRoutes.ts: the limiter in front of the controller *)

(** [router.post('/', limiter, createStory)] and its two siblings: the
    controller runs when, and only when, the limiter calls [next()]. *)
Inductive response (Reply : Type) :=
  | Stopped (o : outcome)
  | Handled (r : Reply).
Arguments Stopped {Reply} _.
Arguments Handled {Reply} _.

Definition is_handled {Reply : Type} (r : response Reply) : bool :=
  match r with Handled _ => true | Stopped _ => false end.

Definition handled {Reply : Type} (rs : list (response Reply)) : nat :=
  length (filter (λ r, is_handled r = true) rs).

Section Route.
Context {Store App Call Reply : Type}.
Variable middleware : string → Z → Z → option exn → Store → outcome * Store.
Variable controller : Call → App → Reply * App.

Definition route (ip : string) (asked now : Z) (link : option exn) (c : Call)
    (st : Store * App) : response Reply * (Store * App) :=
  let '(o, db') := middleware ip asked now link st.1 in
  match o with
  | Next => let '(r, app') := controller c st.2 in (Handled r, (db', app'))
  | _ => (Stopped o, (db', st.2))
  end.

Fixpoint visit (ip : string) (reqs : list (arrival * Call)) (st : Store * App)
    : list (response Reply) * (Store * App) :=
  match reqs with
  | [] => ([], st)
  | (r, c) :: reqs' =>
      let '(x, st') := route ip (asked r) (clock r) (link r) c st in
      let '(xs, st'') := visit ip reqs' st' in
      (x :: xs, st'')
  end.
End Route.

(** ** More invariants *)

(** The counter stays between 1 and the limit. *)
Definition counter_wf (ip : string) (db : gmap string (Redis.slot Z)) : Prop :=
  match db !! ip with
  | None => True
  | Some e => 1 ≤ Redis.value e ≤ Counter.requestLimits
  end.

(** The log is not empty, every entry counts at least one request, the
    counts add up to the limit at most, and the record carries an expiry. *)
Definition log_wf (ip : string) (db : gmap string (Redis.slot (list Log.entry))) : Prop :=
  match db !! ip with
  | None => True
  | Some e =>
      Redis.value e ≠ [] ∧
      Forall (λ x, 1 ≤ Log.requestCount x) (Redis.value e) ∧
      Log.total (Redis.value e) ≤ Log.maxRequests ∧
      is_Some (Redis.deadline e)
  end.

(** An instance of [parseInt] for the concrete runs: the value of a string of
    decimal digits, NaN for any other string. *)
Definition digit (c : Ascii.ascii) : option Z :=
  let n := Z.of_N (Ascii.N_of_ascii c) - 48 in
  if bool_decide (0 ≤ n ≤ 9) then Some n else None.

Fixpoint digits (acc : Z) (s : string) : option Z :=
  match s with
  | EmptyString => Some acc
  | String c s' => match digit c with Some d => digits (10 * acc + d) s' | None => None end
  end.

Definition decimal (s : string) : option Z :=
  match s with EmptyString => None | _ => digits 0 s end.

(** * Facts about the store *)

Section RedisFacts.
Context {V : Type}.
Implicit Types (db : gmap string (Redis.slot V)) (e : Redis.slot V).

Lemma get_Some key now db v :
  Redis.get key now db = Some v ↔
  ∃ e, db !! key = Some e ∧ Redis.live now e = true ∧ Redis.value e = v.
Proof.
  unfold Redis.get. split.
  - destruct (db !! key) as [e|]; [|done].
    destruct (Redis.live now e) eqn:Hl; [|done].
    intros [= <-]. by exists e.
  - intros (e & -> & -> & ->). done.
Qed.

Lemma get_live key now db e :
  db !! key = Some e → Redis.live now e = true →
  Redis.get key now db = Some (Redis.value e).
Proof. intros. apply get_Some. eauto. Qed.

(** A key that is gone stays gone: expiry only depends on the clock. *)
Lemma get_None_later key now now' db :
  Redis.get key now db = None → now ≤ now' → Redis.get key now' db = None.
Proof.
  unfold Redis.get, Redis.live. destruct (db !! key) as [e|]; [|done].
  destruct (Redis.deadline e) as [d|]; [|done].
  repeat case_bool_decide; try done; lia.
Qed.

Lemma lookup_set_ex key v n now db :
  Redis.set_ex key v n now db !! key = Some (Redis.Slot v (Some (now + n * 1000))).
Proof. unfold Redis.set_ex. by rewrite lookup_insert_eq. Qed.

Lemma lookup_set_ex_ne key key' v n now db :
  key ≠ key' → Redis.set_ex key v n now db !! key' = db !! key'.
Proof. intros. unfold Redis.set_ex. by rewrite lookup_insert_ne. Qed.
End RedisFacts.

Lemma lookup_incr_live key now (db : gmap string (Redis.slot Z)) e :
  db !! key = Some e → Redis.live now e = true →
  Redis.incr key now db = <[key := Redis.Slot (Redis.value e + 1) (Redis.deadline e)]> db.
Proof. unfold Redis.incr. by intros -> ->. Qed.

(** * One invocation, case by case *)

Module CounterFacts.
Import Counter.

Lemma counter_fault ip db r e :
  link r = Some e → rateLimitMiddleware ip (asked r) (clock r) (link r) db = (Throw e, db).
Proof. by intros ->. Qed.

Lemma counter_fresh ip asked now db :
  Redis.get ip asked db = None →
  rateLimitMiddleware ip asked now None db = (Next, Redis.set_ex ip 1 ttl now db).
Proof. unfold rateLimitMiddleware, Redis.get_reply. by intros ->. Qed.

Lemma counter_full ip asked now db e :
  db !! ip = Some e → Redis.live asked e = true → requestLimits ≤ Redis.value e →
  rateLimitMiddleware ip asked now None db = (too_many, db).
Proof.
  intros He Hl Hc. unfold rateLimitMiddleware, Redis.get_reply.
  rewrite (get_live _ _ _ _ He Hl). simpl.
  rewrite bool_decide_eq_true_2; [done | lia].
Qed.

(** The INCR of an admitted request, according to whether the counter read
    by the GET is still alive when it lands. *)
Lemma incr_landing ip now (db : gmap string (Redis.slot Z)) e :
  db !! ip = Some e →
  Redis.incr ip now db =
    if Redis.live now e
    then <[ip := Redis.Slot (Redis.value e + 1) (Redis.deadline e)]> db
    else <[ip := Redis.Slot 1 None]> db.
Proof. unfold Redis.incr. by intros ->. Qed.

Lemma counter_room ip asked now db e :
  db !! ip = Some e → Redis.live asked e = true → Redis.live now e = true →
  Redis.value e < requestLimits →
  rateLimitMiddleware ip asked now None db =
    (Next, <[ip := Redis.Slot (Redis.value e + 1) (Redis.deadline e)]> db).
Proof.
  intros He Hl Hl' Hc. unfold rateLimitMiddleware, Redis.get_reply.
  rewrite (get_live _ _ _ _ He Hl). simpl.
  rewrite bool_decide_eq_false_2; [|lia].
  by rewrite (lookup_incr_live _ _ _ _ He Hl').
Qed.

(** Only the record of the requesting address is touched. *)
Lemma counter_other_keys ip ip' asked now link db :
  ip ≠ ip' → (rateLimitMiddleware ip asked now link db).2 !! ip' = db !! ip'.
Proof.
  intros Hne. unfold rateLimitMiddleware, callback, Redis.get_reply.
  destruct link; simpl; [done|].
  destruct (Redis.get ip asked db); simpl.
  - case_bool_decide; simpl; [done|]. unfold Redis.incr.
    destruct (db !! ip) as [e|]; [destruct (Redis.live now e)|];
      by rewrite lookup_insert_ne.
  - by apply lookup_set_ex_ne.
Qed.

(** The shapes above are the only ones. *)
Lemma counter_cases ip asked now link db :
  match link with
  | Some e => rateLimitMiddleware ip asked now link db = (Throw e, db)
  | None =>
      match Redis.get ip asked db with
      | None =>
          rateLimitMiddleware ip asked now link db = (Next, Redis.set_ex ip 1 ttl now db)
      | Some c =>
          ∃ e, db !! ip = Some e ∧ Redis.live asked e = true ∧ Redis.value e = c ∧
            rateLimitMiddleware ip asked now link db =
              if bool_decide (c >= requestLimits) then (too_many, db)
              else (Next,
                    if Redis.live now e
                    then <[ip := Redis.Slot (c + 1) (Redis.deadline e)]> db
                    else <[ip := Redis.Slot 1 None]> db)
      end
  end.
Proof.
  destruct link as [e|]; [done|].
  destruct (Redis.get ip asked db) as [c|] eqn:Hg; [|by apply counter_fresh].
  apply get_Some in Hg as (e & He & Hl & <-). exists e. repeat split; try done.
  case_bool_decide.
  - apply (counter_full _ _ _ _ _ He Hl). lia.
  - unfold rateLimitMiddleware, Redis.get_reply.
    rewrite (get_live _ _ _ _ He Hl). simpl.
    rewrite bool_decide_eq_false_2 by done. by rewrite (incr_landing _ _ _ _ He).
Qed.
End CounterFacts.

Module LogFacts.
Import Log.

Lemma total_from a l :
  foldl (λ accumulator e, accumulator + requestCount e) a l = a + total l.
Proof.
  unfold total. revert a. induction l as [|e l IH]; intros a; simpl; [lia|].
  rewrite (IH (a + _)), (IH (0 + _)). lia.
Qed.

Lemma total_cons e l : total (e :: l) = requestCount e + total l.
Proof. unfold total at 1. simpl. by rewrite total_from. Qed.

Lemma total_snoc l e : total (l ++ [e]) = total l + requestCount e.
Proof. unfold total. by rewrite foldl_snoc. Qed.

Lemma bump_last l e :
  alter bump (length (l ++ [e]) - 1)%nat (l ++ [e]) = l ++ [bump e].
Proof.
  rewrite length_app. simpl.
  replace (length l + 1 - 1)%nat with (length l + 0)%nat by lia.
  by rewrite alter_app_r.
Qed.

Lemma within_recent w l : Forall (λ e, timeStamp e > w) (within w l).
Proof.
  apply Forall_forall. intros e He. unfold within in He.
  by apply list_elem_of_filter in He as [? _].
Qed.

Lemma within_keeps w l : Forall (λ e, timeStamp e > w) l → within w l = l.
Proof.
  unfold within. induction 1 as [|e l He _ IH]; [done|].
  by rewrite filter_cons_True, IH.
Qed.

Lemma within_Forall (P : entry → Prop) w l : Forall P l → Forall P (within w l).
Proof.
  intros H. apply Forall_forall. intros e He. unfold within in He.
  apply list_elem_of_filter in He as [_ He]. by eapply Forall_forall in H.
Qed.

Section LogRequest.
Variables (now : Z) (l : list entry) (lastRequestLog : entry).
Hypothesis Hlast : last l = Some lastRequestLog.

Lemma log_request_total : total (log_request now l lastRequestLog) = total l + 1.
Proof using Hlast.
  apply last_Some in Hlast as [l' ->]. unfold log_request. case_bool_decide.
  - rewrite bump_last, !total_snoc. simpl. lia.
  - by rewrite total_snoc.
Qed.

Lemma log_request_Forall (P : entry → Prop) :
  (∀ e, P e → P (bump e)) → P (Entry now 1) → Forall P l →
  Forall P (log_request now l lastRequestLog).
Proof using Hlast.
  intros Hb Hn Hl. apply last_Some in Hlast as [l' ->].
  unfold log_request. case_bool_decide.
  - rewrite bump_last. apply Forall_app in Hl as [Hl' He].
    apply Forall_app. split; [done|]. apply Forall_singleton, Hb.
    exact (proj1 (Forall_singleton _ _) He).
  - apply Forall_app. split; [done|]. by apply Forall_singleton.
Qed.

Lemma log_request_last : is_Some (last (log_request now l lastRequestLog)).
Proof using Hlast.
  apply last_Some in Hlast as [l' ->]. unfold log_request. case_bool_decide.
  - rewrite bump_last, last_snoc. eauto.
  - rewrite last_snoc. eauto.
Qed.
End LogRequest.

Lemma log_fault ip db r e :
  link r = Some e → rateLimiterMiddleware ip (asked r) (clock r) (link r) db = (Throw e, db).
Proof. by intros ->. Qed.

Lemma log_fresh ip asked now db :
  Redis.get ip asked db = None →
  rateLimiterMiddleware ip asked now None db =
    (Next, Redis.set_ex ip [Entry now 1] rateLimitWindow now db).
Proof. unfold rateLimiterMiddleware, Redis.get_reply. by intros ->. Qed.

Lemma log_full ip asked now db data :
  Redis.get ip asked db = Some data →
  maxRequests ≤ total (within (now - rateLimitWindow * 1000) data) →
  rateLimiterMiddleware ip asked now None db = (exceeded, db).
Proof.
  intros Hg Ht. unfold rateLimiterMiddleware, Redis.get_reply. rewrite Hg. simpl.
  rewrite bool_decide_eq_true_2; [done | lia].
Qed.

Lemma log_room ip asked now db data lastRequestLog :
  Redis.get ip asked db = Some data →
  total (within (now - rateLimitWindow * 1000) data) < maxRequests →
  last (within (now - rateLimitWindow * 1000) data) = Some lastRequestLog →
  rateLimiterMiddleware ip asked now None db =
    (Next, Redis.set_ex ip
       (log_request now (within (now - rateLimitWindow * 1000) data) lastRequestLog)
       rateLimitWindow now db).
Proof.
  intros Hg Ht Hl. unfold rateLimiterMiddleware, Redis.get_reply. rewrite Hg. simpl.
  rewrite bool_decide_eq_false_2; [|lia]. by rewrite Hl.
Qed.

(** A live record whose entries have all left the window: the sum is 0, the
    admitting branch reads [timeStamp] of [undefined] and throws. *)
Lemma log_stale ip asked now db data :
  Redis.get ip asked db = Some data →
  within (now - rateLimitWindow * 1000) data = [] →
  ∃ msg, rateLimiterMiddleware ip asked now None db = (Throw (TypeError msg), db).
Proof.
  intros Hg He. unfold rateLimiterMiddleware, Redis.get_reply. rewrite Hg. simpl.
  rewrite He. simpl. eauto.
Qed.

(** This happens: the second request of a second is logged under the stamp of
    the first but renews the expiry, so the record outlives its only entry. *)
Example log_stale_reached :
  ∃ msg, (serve rateLimiterMiddleware client [at_ 0; at_ 999; at_ 60500] ∅).1
    = [Next; Next; Throw (TypeError msg)].
Proof. eexists. by vm_compute. Qed.

(** Only the record of the requesting address is touched. *)
Lemma log_other_keys ip ip' asked now link db :
  ip ≠ ip' → (rateLimiterMiddleware ip asked now link db).2 !! ip' = db !! ip'.
Proof.
  intros Hne. unfold rateLimiterMiddleware, callback, Redis.get_reply.
  destruct link; simpl; [done|].
  destruct (Redis.get ip asked db); simpl; [|by apply lookup_set_ex_ne].
  case_bool_decide; simpl; [done|].
  destruct (last _); simpl; [by apply lookup_set_ex_ne|done].
Qed.
End LogFacts.

(** * Runs of requests *)

Lemma admissions_cons o os :
  admissions (o :: os) = ((if admitted o then 1 else 0) + admissions os)%nat.
Proof.
  unfold admissions. destruct (admitted o) eqn:E.
  - by rewrite filter_cons_True.
  - rewrite filter_cons_False; [done | congruence].
Qed.

Lemma healthy_cons r reqs :
  healthy (r :: reqs) = ((match link r with Some _ => 0 | None => 1 end) + healthy reqs)%nat.
Proof.
  unfold healthy. destruct (link r) eqn:E.
  - rewrite filter_cons_False; [done | congruence].
  - by rewrite filter_cons_True.
Qed.

Lemma healthy_burst n t : healthy (burst n t) = n.
Proof.
  unfold burst. induction n as [|n IH]; [done|].
  simpl. rewrite healthy_cons. simpl. by rewrite IH.
Qed.

Section Runs.
Context {Store : Type}.
Variable middleware : string → Z → Z → option exn → Store → outcome * Store.
Variable ip : string.
Variable P : arrival → Prop.

Lemma serve_cons r reqs db :
  serve middleware ip (r :: reqs) db =
    let o := middleware ip (asked r) (clock r) (link r) db in
    let rest := serve middleware ip reqs o.2 in
    (o.1 :: rest.1, rest.2).
Proof.
  simpl. destruct (middleware ip (asked r) (clock r) (link r) db) as [o db'].
  simpl. by destruct (serve middleware ip reqs db').
Qed.

(** A property of the store kept by every invocation is kept by a run. *)
Lemma serve_preserves (I : Store → Prop) :
  (∀ db r, I db → P r → I (middleware ip (asked r) (clock r) (link r) db).2) →
  ∀ reqs db, Forall P reqs → I db → I (serve middleware ip reqs db).2.
Proof.
  intros Hstep reqs. induction reqs as [|r reqs IH]; intros db HP HI; [done|].
  apply Forall_cons in HP as [Hr HP]. rewrite serve_cons. simpl.
  apply IH; [done|]. by apply Hstep.
Qed.

(** Counting argument shared by the two limiters: [Inv k db] says that [k]
    requests have been admitted so far and describes the record that
    results. *)
Variable Inv : nat → Store → Prop.
Variable N : nat.
Hypothesis step_fault : ∀ db r e,
  link r = Some e → middleware ip (asked r) (clock r) (link r) db = (Throw e, db).
Hypothesis step_admit : ∀ k db r,
  Inv k db → P r → link r = None → (k < N)%nat →
  ∃ db', middleware ip (asked r) (clock r) (link r) db = (Next, db') ∧ Inv (S k) db'.
Hypothesis step_reject : ∀ db r,
  Inv N db → P r → link r = None →
  ∃ o, middleware ip (asked r) (clock r) (link r) db = (o, db) ∧ admitted o = false.

Lemma serve_counts reqs : ∀ k db,
  Inv k db → (k ≤ N)%nat → Forall P reqs →
  (k + admissions (serve middleware ip reqs db).1)%nat = Nat.min N (k + healthy reqs) ∧
  Inv (Nat.min N (k + healthy reqs)) (serve middleware ip reqs db).2.
Proof using step_fault step_admit step_reject.
  induction reqs as [|r reqs IH]; intros k db HI Hk HP.
  - simpl. unfold admissions, healthy. simpl.
    replace (Nat.min N (k + 0)) with k by lia. split; [lia|done].
  - apply Forall_cons in HP as [Hr HP].
    rewrite serve_cons, healthy_cons. simpl. rewrite admissions_cons.
    destruct (link r) as [e|] eqn:Hlink.
    + rewrite <- Hlink, (step_fault db r e Hlink). simpl.
      apply (IH k db); done.
    + rewrite <- Hlink. destruct (decide (k < N)%nat) as [Hlt|Hge].
      * destruct (step_admit k db r HI Hr Hlink Hlt) as (db' & -> & HI'). simpl.
        destruct (IH (S k) db' HI' Hlt HP) as [Hc HI''].
        match goal with |- context [Nat.min N ?x] =>
          replace x with (S k + healthy reqs)%nat by lia end.
        split; [lia|done].
      * assert (k = N) as -> by lia.
        destruct (step_reject db r HI Hr Hlink) as (o & -> & Ho). simpl. rewrite Ho.
        destruct (IH N db HI Hk HP) as [Hc HI''].
        match goal with |- context [Nat.min N ?x] =>
          replace (Nat.min N x) with (Nat.min N (N + healthy reqs)) by lia end.
        split; [lia|done].
Qed.
End Runs.

Section CounterRuns.
Import Counter.
Variables (ip : string) (a b : Z).
Hypothesis Hab : b < a + ttl * 1000.

Lemma counter_step_admit k db r :
  counter_inv ip a b k db → in_window a b r → link r = None →
  (k < Z.to_nat requestLimits)%nat →
  ∃ db', rateLimitMiddleware ip (asked r) (clock r) (link r) db = (Next, db') ∧
         counter_inv ip a b (S k) db'.
Proof using Hab.
  unfold in_window, requestLimits. intros HI Hr -> Hk. destruct k as [|k]; simpl in HI.
  - eexists. split.
    + apply CounterFacts.counter_fresh. apply (get_None_later _ a); [done|lia].
    + eexists. split; [apply lookup_set_ex|lia].
  - destruct HI as (d & Hd & Hb). eexists. split.
    + apply (CounterFacts.counter_room _ _ _ _ _ Hd).
      * simpl. apply bool_decide_eq_true_2. lia.
      * simpl. apply bool_decide_eq_true_2. lia.
      * unfold requestLimits. simpl. lia.
    + exists d. split; [|lia]. rewrite lookup_insert_eq. simpl.
      do 2 f_equal. lia.
Qed.

Lemma counter_step_reject db r :
  counter_inv ip a b (Z.to_nat requestLimits) db → in_window a b r → link r = None →
  ∃ o, rateLimitMiddleware ip (asked r) (clock r) (link r) db = (o, db) ∧ admitted o = false.
Proof using Hab.
  unfold in_window. intros (d & Hd & Hb) Hr ->. exists too_many. split; [|done].
  apply (CounterFacts.counter_full _ _ _ _ _ Hd).
  - simpl. apply bool_decide_eq_true_2. lia.
  - simpl. unfold requestLimits. lia.
Qed.

Lemma counter_run reqs db :
  Redis.get ip a db = None → Forall (in_window a b) reqs →
  admissions (serve rateLimitMiddleware ip reqs db).1
    = Nat.min (Z.to_nat requestLimits) (healthy reqs) ∧
  counter_inv ip a b (Nat.min (Z.to_nat requestLimits) (healthy reqs))
    (serve rateLimitMiddleware ip reqs db).2.
Proof using Hab.
  intros Hg HP.
  apply (serve_counts rateLimitMiddleware ip (in_window a b) (counter_inv ip a b)
           (Z.to_nat requestLimits)) with (k := O) (db := db) in HP.
  - done.
  - intros; by apply CounterFacts.counter_fault.
  - apply counter_step_admit.
  - apply counter_step_reject.
  - done.
  - lia.
Qed.
End CounterRuns.

Section LogRuns.
Import Log.
Variables (ip : string) (a b : Z).
Hypothesis Hab : b < a + rateLimitWindow * 1000.

Lemma log_step_admit k db r :
  log_inv ip a b k db → in_window a b r → link r = None →
  (k < Z.to_nat maxRequests)%nat →
  ∃ db', rateLimiterMiddleware ip (asked r) (clock r) (link r) db = (Next, db') ∧
         log_inv ip a b (S k) db'.
Proof using Hab.
  unfold in_window, maxRequests. intros HI Hr -> Hk. destruct k as [|k]; simpl in HI.
  - eexists. split.
    + apply LogFacts.log_fresh. apply (get_None_later _ a); [done|lia].
    + eexists _, _. split; [apply lookup_set_ex|].
      split; [lia|]. split; [by eexists|]. split; [|done].
      apply Forall_singleton. simpl. lia.
  - destruct HI as (l & d & Hd & Hb & [e He] & Hl & Ht).
    assert (Redis.get ip (asked r) db = Some l) as Hg.
    { apply (get_live _ _ _ _ Hd). simpl. apply bool_decide_eq_true_2. lia. }
    assert (within (clock r - rateLimitWindow * 1000) l = l) as Hw.
    { apply LogFacts.within_keeps. eapply Forall_impl; [exact Hl|]. simpl. lia. }
    eexists. split.
    + apply (LogFacts.log_room _ _ _ _ _ e Hg); rewrite Hw; [|done].
      unfold maxRequests. lia.
    + rewrite Hw. eexists _, _. split; [apply lookup_set_ex|].
      split; [lia|]. split; [by apply LogFacts.log_request_last|].
      split.
      * apply (LogFacts.log_request_Forall _ _ _ He); simpl; [done|lia|done].
      * rewrite (LogFacts.log_request_total _ _ _ He). lia.
Qed.

Lemma log_step_reject db r :
  log_inv ip a b (Z.to_nat maxRequests) db → in_window a b r → link r = None →
  ∃ o, rateLimiterMiddleware ip (asked r) (clock r) (link r) db = (o, db) ∧ admitted o = false.
Proof using Hab.
  unfold in_window. intros (l & d & Hd & Hb & _ & Hl & Ht) Hr ->.
  exists exceeded. split; [|done].
  apply (LogFacts.log_full _ _ _ _ l).
  - apply (get_live _ _ _ _ Hd). simpl. apply bool_decide_eq_true_2. lia.
  - rewrite LogFacts.within_keeps; [rewrite Ht; unfold maxRequests; lia|].
    eapply Forall_impl; [exact Hl|]. simpl. lia.
Qed.

Lemma log_run reqs db :
  Redis.get ip a db = None → Forall (in_window a b) reqs →
  admissions (serve rateLimiterMiddleware ip reqs db).1
    = Nat.min (Z.to_nat maxRequests) (healthy reqs) ∧
  log_inv ip a b (Nat.min (Z.to_nat maxRequests) (healthy reqs))
    (serve rateLimiterMiddleware ip reqs db).2.
Proof using Hab.
  intros Hg HP.
  apply (serve_counts rateLimiterMiddleware ip (in_window a b) (log_inv ip a b)
           (Z.to_nat maxRequests)) with (k := O) (db := db) in HP.
  - done.
  - intros; by apply LogFacts.log_fault.
  - apply log_step_admit.
  - apply log_step_reject.
  - done.
  - lia.
Qed.
End LogRuns.

(** * Quota over a window *)




(** * Requests in flight together *)

(** A request that is alone from GET to callback behaves as the middleware. *)
Lemma advance_twice {V} (callback : string → Z → option exn → option V →
      gmap string (Redis.slot V) → outcome * gmap string (Redis.slot V))
    ip now i tasks db :
  tasks !! i = Some Queued →
  advance callback ip now i (advance callback ip now i (tasks, db)) =
    let '(err, record) := Redis.get_reply None ip now db in
    let '(o, db') := callback ip now err record db in
    (<[i := Finished o]> tasks, db').
Proof.
  intros Hi. unfold advance at 2. rewrite Hi. simpl.
  unfold advance. rewrite list_lookup_insert_eq by (by eapply lookup_lt_Some).
  destruct (callback ip now None (Redis.get ip now db) db) as [o db'].
  by rewrite list_insert_insert_eq.
Qed.

(** C2, as stated, fails: neither middleware compares the record with the
    value it read before writing.  Eleven requests of one address at the same
    instant whose GETs are all answered before the first callback runs all
    find no record, all write a fresh one, and all eleven are admitted. *)
Lemma concurrent_burst_overadmits :
  let schedule := seq 0 11 ++ seq 0 11 in
  finished_admitted
    (interleave Counter.callback client 0 schedule (replicate 11 Queued, ∅)).1 = 11%nat ∧
  finished_admitted
    (interleave Log.callback client 0 schedule (replicate 11 Queued, ∅)).1 = 11%nat.
Proof. by vm_compute. Qed.

(** C2, amended: the write-back is an unconditional SET (or INCR).  When the
    requests of one address at one instant are handled one after the other,
    each callback finishing before the next GET, and the key has no live
    record, exactly [min 10 n] of [n] requests are admitted. *)
Theorem sequential_burst_admits_min ip now n :
  (∀ db, Redis.get ip now db = None →
     admissions (serve Counter.rateLimitMiddleware ip (burst n now) db).1
       = Nat.min (Z.to_nat Counter.requestLimits) n) ∧
  (∀ db, Redis.get ip now db = None →
     admissions (serve Log.rateLimiterMiddleware ip (burst n now) db).1
       = Nat.min (Z.to_nat Log.maxRequests) n).
Proof.
  assert (Forall (in_window now now) (burst n now)) as HP.
  { apply Forall_replicate. unfold in_window. simpl. lia. }
  split; intros db Hg.
  - destruct (counter_run ip now now ltac:(unfold Counter.ttl; lia) _ db Hg HP) as [-> _].
    by rewrite healthy_burst.
  - destruct (log_run ip now now ltac:(unfold Log.rateLimitWindow; lia) _ db Hg HP) as [-> _].
    by rewrite healthy_burst.
Qed.

Lemma sequential_burst_admits_min_witness :
  admissions (serve Counter.rateLimitMiddleware client (burst 25 0) ∅).1
    = Nat.min (Z.to_nat Counter.requestLimits) 25 ∧
  admissions (serve Log.rateLimiterMiddleware client (burst 25 0) ∅).1
    = Nat.min (Z.to_nat Log.maxRequests) 25.
Proof.
  split.
  - apply (proj1 (sequential_burst_admits_min client 0 25)). reflexivity.
  - apply (proj2 (sequential_burst_admits_min client 0 25)). reflexivity.
Defined.

(** * The concrete scenario *)

(** C3, as stated, fails in two places.  The eleventh request at 0 s is
    rejected, but the response holds no [retryAfterSeconds], about 60 or
    otherwise.  And the request at exactly 60 s is not admitted: the record
    written at 0 s is still served at its deadline, so the counter limiter
    answers 429 again, and the list limiter does not call [next()] either. *)
Lemma eleventh_call_has_no_retry_after :
  (∃ o, (serve Counter.rateLimitMiddleware client (burst 11 0) ∅).1 !! 10%nat = Some o ∧
        rejected o = true ∧ json_field "retryAfterSeconds" o = None) ∧
  (∃ o, (serve Log.rateLimiterMiddleware client (burst 11 0) ∅).1 !! 10%nat = Some o ∧
        rejected o = true ∧ json_field "retryAfterSeconds" o = None) ∧
  (serve Counter.rateLimitMiddleware client (burst 11 0 ++ [at_ 60000]) ∅).1 !! 11%nat
    = Some Counter.too_many ∧
  (∃ o, (serve Log.rateLimiterMiddleware client (burst 11 0 ++ [at_ 60000]) ∅).1 !! 11%nat
          = Some o ∧ admitted o = false).
Proof. repeat split; try eexists; by vm_compute. Qed.

(** C3, amended: on a key never seen, ten requests at 0 s are admitted and
    the eleventh at 0 s is answered 429 with a message and nothing else.  The
    record is served up to and including 60 s, where the counter limiter
    answers 429 once more; a request one millisecond later, the record having
    expired, is admitted by both limiters. *)
Theorem concrete_scenario :
  (serve Counter.rateLimitMiddleware client (burst 11 0 ++ [at_ 60000; at_ 60001]) ∅).1
    = replicate 10 Next ++ [Counter.too_many; Counter.too_many; Next] ∧
  (serve Log.rateLimiterMiddleware client (burst 11 0 ++ [at_ 60001]) ∅).1
    = replicate 10 Next ++ [Log.exceeded; Next] ∧
  json_field "retryAfterSeconds" Counter.too_many = None ∧
  json_field "retryAfterSeconds" Log.exceeded = None.
Proof. by vm_compute. Qed.

(** * Expiry and the return of capacity *)

Lemma expired_get {V} ip D now (db : gmap string (Redis.slot V)) :
  expires_by ip D db → D < now → Redis.get ip now db = None.
Proof.
  unfold expires_by, Redis.get, Redis.live.
  destruct (db !! ip) as [e|]; [|done]. intros (d & -> & Hd) Hn.
  rewrite bool_decide_eq_false_2; [done|lia].
Qed.

Lemma log_write_shape ip asked now link db :
  (∃ o, Log.rateLimiterMiddleware ip asked now link db = (o, db)) ∨
  (∃ written, Log.rateLimiterMiddleware ip asked now link db
     = (Next, Redis.set_ex ip written Log.rateLimitWindow now db)).
Proof.
  unfold Log.rateLimiterMiddleware, Log.callback, Redis.get_reply.
  destruct link; simpl; [eauto|].
  destruct (Redis.get ip asked db); simpl; [|eauto].
  case_bool_decide; simpl; [eauto|].
  destruct (last _); simpl; eauto.
Qed.

Lemma log_keeps_expiry ip T db r :
  expires_by ip (T + Log.rateLimitWindow * 1000) db → clock r ≤ T →
  expires_by ip (T + Log.rateLimitWindow * 1000)
    (Log.rateLimiterMiddleware ip (asked r) (clock r) (link r) db).2.
Proof.
  intros HI Hr.
  destruct (log_write_shape ip (asked r) (clock r) (link r) db)
    as [[o ->]|[written ->]]; [done|].
  simpl. unfold expires_by. rewrite lookup_set_ex. simpl.
  eexists. split; [done|lia].
Qed.

(** C8 fails on the counter limiter.  A request at 0 s creates the counter,
    which expires at 60 s.  The GET of a second request is answered at
    59.999 s and its INCR lands at 60.001 s, on a key that is gone: Redis
    recreates the counter as 1 without expiry.  From then on the history is
    never forgotten: a request 140 s later is counted on top of it, and once
    nine more requests have been admitted every request, after any gap, is
    answered 429. *)
Theorem counter_without_expiry_survives_gap :
  let db2 := (serve Counter.rateLimitMiddleware client
                [at_ 0; Arrival 59999 60001 None] ∅).2 in
  let db11 := (serve Counter.rateLimitMiddleware client (burst 9 60002) db2).2 in
  (serve Counter.rateLimitMiddleware client [at_ 0; Arrival 59999 60001 None] ∅).1
    = [Next; Next] ∧
  db2 !! client = Some (Redis.Slot 1 None) ∧
  (Counter.rateLimitMiddleware client 200000 200000 None db2).2 !! client
    = Some (Redis.Slot 2 None) ∧
  db11 !! client = Some (Redis.Slot 10 None) ∧
  ∀ asked now,
    Counter.rateLimitMiddleware client asked now None db11 = (Counter.too_many, db11).
Proof.
  intros db2 db11.
  split; [by vm_compute|]. split; [by vm_compute|].
  split; [by vm_compute|]. split; [by vm_compute|].
  intros asked now.
  apply (CounterFacts.counter_full client asked now db11 (Redis.Slot 10 None));
    by vm_compute.
Qed.

(** X16: the list limiter forgets.  When every request served so far for the
    key, one after the other from an empty store, had its callback run at
    [T] at the latest, a request whose GET is answered later than [T] plus
    two windows finds no record, is admitted, and writes a record that
    counts this request alone. *)
Theorem log_gap_forgets_history ip reqs T asked now :
  Forall (λ r, clock r ≤ T) reqs →
  T + 2 * (Log.rateLimitWindow * 1000) < asked →
  let db := (serve Log.rateLimiterMiddleware ip reqs ∅).2 in
  Redis.get ip asked db = None ∧
  (Log.rateLimiterMiddleware ip asked now None db).1 = Next ∧
  (Log.rateLimiterMiddleware ip asked now None db).2 !! ip
    = Some (Redis.Slot [Log.Entry now 1] (Some (now + Log.rateLimitWindow * 1000))).
Proof.
  intros HP Hgap db.
  assert (Redis.get ip asked db = None) as Hg.
  { apply (expired_get _ (T + Log.rateLimitWindow * 1000));
      [|unfold Log.rateLimitWindow in *; lia].
    apply (serve_preserves _ _ (λ r, clock r ≤ T)); [|done|done].
    intros. by apply log_keeps_expiry. }
  rewrite (LogFacts.log_fresh _ _ _ _ Hg). simpl.
  by rewrite lookup_set_ex.
Qed.

Lemma log_gap_forgets_history_witness :
  let db := (serve Log.rateLimiterMiddleware client
               (burst 10 0 ++ [Arrival 4000 5000 None] ++ burst 2 5000) ∅).2 in
  Redis.get client 125001 db = None ∧
  (Log.rateLimiterMiddleware client 125001 125003 None db).1 = Next ∧
  (Log.rateLimiterMiddleware client 125001 125003 None db).2 !! client
    = Some (Redis.Slot [Log.Entry 125003 1] (Some (125003 + Log.rateLimitWindow * 1000))).
Proof.
  apply (log_gap_forgets_history client _ 5000 125001 125003).
  - apply (bool_decide_unpack _). vm_compute. exact I.
  - reflexivity.
Defined.

(** C9, as stated, fails: the quantity compared with the limit does not decay
    with the time elapsed.  For the stored list of a key that spent its quota
    at 0 s the sum is 10 at 1 s and still 10 at 59.999 s; the request at
    59.999 s is rejected and, two milliseconds later, ten requests in a row
    are admitted.  The counter limiter behaves the same way. *)
Lemma estimate_does_not_decay :
  Log.total (Log.within (1000 - Log.rateLimitWindow * 1000) [Log.Entry 0 10]) = 10 ∧
  Log.total (Log.within (59999 - Log.rateLimitWindow * 1000) [Log.Entry 0 10]) = 10 ∧
  (serve Log.rateLimiterMiddleware client (burst 10 0 ++ [at_ 59999] ++ burst 10 60001) ∅).1
    = replicate 10 Next ++ [Log.exceeded] ++ replicate 10 Next ∧
  (serve Counter.rateLimitMiddleware client (burst 10 0 ++ [at_ 59999] ++ burst 10 60001) ∅).1
    = replicate 10 Next ++ [Counter.too_many] ++ replicate 10 Next.
Proof. by vm_compute. Qed.

Lemma total_within_antitone w1 w2 l :
  w1 ≤ w2 → Forall (λ e, 0 ≤ Log.requestCount e) l →
  Log.total (Log.within w2 l) ≤ Log.total (Log.within w1 l).
Proof.
  intros Hw. unfold Log.within. induction 1 as [|e l He _ IH]; [done|].
  rewrite !filter_cons. repeat case_decide; rewrite ?LogFacts.total_cons; lia.
Qed.

(** C9, amended: the quantity compared with the limit is the stored counter
    (counter limiter) or the sum of [requestCount] over the entries stamped
    within the last [rateLimitWindow] seconds (list limiter); for a stored
    list with non-negative counts that sum never grows as the clock advances,
    and nothing decays in between.  A key without live record that spends its
    quota at the instant [t0] is rejected, store untouched, at every instant
    of the next 60 s, and once more than 60 s have passed since [t0] it has
    its whole quota back at once: of [n] requests at such an instant, handled
    one after the other, [min 10 n] are admitted. *)
Theorem capacity_returns_at_once ip t0 :
  (∀ now1 now2 data, now1 ≤ now2 → Forall (λ e, 0 ≤ Log.requestCount e) data →
     Log.total (Log.within (now2 - Log.rateLimitWindow * 1000) data)
       ≤ Log.total (Log.within (now1 - Log.rateLimitWindow * 1000) data)) ∧
  (∀ db, Redis.get ip t0 db = None →
     let db1 := (serve Counter.rateLimitMiddleware ip
                   (burst (Z.to_nat Counter.requestLimits) t0) db).2 in
     (∀ asked t, t0 ≤ asked ≤ t → t < t0 + Counter.ttl * 1000 →
        Counter.rateLimitMiddleware ip asked t None db1 = (Counter.too_many, db1)) ∧
     (∀ t n, t0 + Counter.ttl * 1000 < t →
        admissions (serve Counter.rateLimitMiddleware ip (burst n t) db1).1
          = Nat.min (Z.to_nat Counter.requestLimits) n)) ∧
  (∀ db, Redis.get ip t0 db = None →
     let db1 := (serve Log.rateLimiterMiddleware ip
                   (burst (Z.to_nat Log.maxRequests) t0) db).2 in
     (∀ asked t, t0 ≤ asked ≤ t → t < t0 + Log.rateLimitWindow * 1000 →
        Log.rateLimiterMiddleware ip asked t None db1 = (Log.exceeded, db1)) ∧
     (∀ t n, t0 + Log.rateLimitWindow * 1000 < t →
        admissions (serve Log.rateLimiterMiddleware ip (burst n t) db1).1
          = Nat.min (Z.to_nat Log.maxRequests) n)).
Proof.
  assert (∀ n t, Forall (in_window t t) (burst n t)) as HP.
  { intros. apply Forall_replicate. unfold in_window. simpl. lia. }
  split; [|split].
  - intros now1 now2 data Hn Hd. apply total_within_antitone; [lia|done].
  - intros db Hg db1.
    destruct (counter_run ip t0 t0 ltac:(unfold Counter.ttl; lia) _ db Hg
                (HP (Z.to_nat Counter.requestLimits) t0))
      as [_ HI].
    rewrite healthy_burst, Nat.min_id in HI. fold db1 in HI.
    destruct HI as (d & Hd & Hb). split.
    + intros asked t Ha Ht. apply (CounterFacts.counter_full _ _ _ _ _ Hd); simpl.
      * apply bool_decide_eq_true_2. lia.
      * unfold Counter.requestLimits. lia.
    + intros t n Ht.
      assert (Redis.get ip t db1 = None) as Hg1.
      { unfold Redis.get. rewrite Hd. simpl. unfold Redis.live. simpl.
        rewrite bool_decide_eq_false_2; [done|lia]. }
      destruct (counter_run ip t t ltac:(unfold Counter.ttl; lia) _ db1 Hg1 (HP n t))
        as [-> _].
      by rewrite healthy_burst.
  - intros db Hg db1.
    destruct (log_run ip t0 t0 ltac:(unfold Log.rateLimitWindow; lia) _ db Hg
                (HP (Z.to_nat Log.maxRequests) t0))
      as [_ HI].
    rewrite healthy_burst, Nat.min_id in HI. fold db1 in HI.
    destruct HI as (l & d & Hd & Hb & _ & Hl & Ht). split.
    + intros asked t Ha Hin. apply (LogFacts.log_full _ _ _ _ l).
      * apply (get_live _ _ _ _ Hd). simpl. apply bool_decide_eq_true_2. lia.
      * rewrite LogFacts.within_keeps; [rewrite Ht; unfold Log.maxRequests; lia|].
        eapply Forall_impl; [exact Hl|]. simpl. lia.
    + intros t n Hin.
      assert (Redis.get ip t db1 = None) as Hg1.
      { unfold Redis.get. rewrite Hd. simpl. unfold Redis.live. simpl.
        rewrite bool_decide_eq_false_2; [done|lia]. }
      destruct (log_run ip t t ltac:(unfold Log.rateLimitWindow; lia) _ db1 Hg1 (HP n t))
        as [-> _].
      by rewrite healthy_burst.
Qed.

Lemma capacity_returns_at_once_witness :
  Log.total (Log.within (61000 - Log.rateLimitWindow * 1000)
               [Log.Entry 0 4; Log.Entry 1500 3; Log.Entry 30000 1])
    ≤ Log.total (Log.within (30000 - Log.rateLimitWindow * 1000)
               [Log.Entry 0 4; Log.Entry 1500 3; Log.Entry 30000 1]) ∧
  (let db1 := (serve Counter.rateLimitMiddleware client
                 (burst (Z.to_nat Counter.requestLimits) 0) ∅).2 in
   Counter.rateLimitMiddleware client 59990 59999 None db1 = (Counter.too_many, db1) ∧
   admissions (serve Counter.rateLimitMiddleware client (burst 12 60001) db1).1
     = Nat.min (Z.to_nat Counter.requestLimits) 12) ∧
  (let db1 := (serve Log.rateLimiterMiddleware client
                 (burst (Z.to_nat Log.maxRequests) 0) ∅).2 in
   Log.rateLimiterMiddleware client 59990 59999 None db1 = (Log.exceeded, db1) ∧
   admissions (serve Log.rateLimiterMiddleware client (burst 12 60001) db1).1
     = Nat.min (Z.to_nat Log.maxRequests) 12).
Proof.
  destruct (capacity_returns_at_once client 0) as (Hmono & Hc & Hl).
  split; [|split].
  - apply Hmono; [lia|]. apply (bool_decide_unpack _). vm_compute. exact I.
  - destruct (Hc ∅) as [Hrej Hret]; [reflexivity|]. split.
    + apply Hrej; [lia|]. unfold Counter.ttl. lia.
    + apply Hret. unfold Counter.ttl. lia.
  - destruct (Hl ∅) as [Hrej Hret]; [reflexivity|]. split.
    + apply Hrej; [lia|]. unfold Log.rateLimitWindow. lia.
    + apply Hret. unfold Log.rateLimitWindow. lia.
Defined.

(** * Single invocations *)

(** C4, as stated, fails: after ten admitted requests the eleventh is
    rejected by both middlewares, and the body sent with the 429 has no
    [retryAfterSeconds] field. *)
Lemma rejection_has_no_retry_after :
  (let db := (serve Counter.rateLimitMiddleware client (burst 10 0) ∅).2 in
   let o := (Counter.rateLimitMiddleware client 0 0 None db).1 in
   rejected o = true ∧ json_field "retryAfterSeconds" o = None) ∧
  (let db := (serve Log.rateLimiterMiddleware client (burst 10 0) ∅).2 in
   let o := (Log.rateLimiterMiddleware client 0 0 None db).1 in
   rejected o = true ∧ json_field "retryAfterSeconds" o = None).
Proof. vm_compute. done. Qed.

(** C4, amended: whatever the store holds, an invocation ends in [next()],
    in the fixed 429 response whose body is the single field [message], or in
    an exception; no response ever carries [retryAfterSeconds]. *)
Theorem retry_after_never_sent ip asked now link :
  (∀ db, let o := (Counter.rateLimitMiddleware ip asked now link db).1 in
     (o = Next ∨ o = Counter.too_many ∨ ∃ e, o = Throw e) ∧
     json_field "retryAfterSeconds" o = None) ∧
  (∀ db, let o := (Log.rateLimiterMiddleware ip asked now link db).1 in
     (o = Next ∨ o = Log.exceeded ∨ ∃ e, o = Throw e) ∧
     json_field "retryAfterSeconds" o = None).
Proof.
  split; intros db o; subst o.
  - unfold Counter.rateLimitMiddleware, Counter.callback, Redis.get_reply.
    destruct link; simpl; [eauto|].
    destruct (Redis.get ip asked db); simpl; [|eauto].
    case_bool_decide; simpl; eauto.
  - unfold Log.rateLimiterMiddleware, Log.callback, Redis.get_reply.
    destruct link; simpl; [eauto|].
    destruct (Redis.get ip asked db); simpl; [|eauto].
    case_bool_decide; simpl; [eauto|].
    destruct (last _); simpl; eauto.
Qed.

(** C5: a rejected request (429) leaves the whole store as it was, for both
    middlewares: the rejecting branch issues no SET and no INCR. *)
Theorem rejection_leaves_store_untouched ip asked now link :
  (∀ db, rejected (Counter.rateLimitMiddleware ip asked now link db).1 = true →
         (Counter.rateLimitMiddleware ip asked now link db).2 = db) ∧
  (∀ db, rejected (Log.rateLimiterMiddleware ip asked now link db).1 = true →
         (Log.rateLimiterMiddleware ip asked now link db).2 = db).
Proof.
  split; intros db.
  - unfold Counter.rateLimitMiddleware, Counter.callback, Redis.get_reply.
    destruct link; simpl; [done|].
    destruct (Redis.get ip asked db); simpl; [|done].
    case_bool_decide; simpl; done.
  - unfold Log.rateLimiterMiddleware, Log.callback, Redis.get_reply.
    destruct link; simpl; [done|].
    destruct (Redis.get ip asked db); simpl; [|done].
    case_bool_decide; simpl; [done|].
    destruct (last _); simpl; done.
Qed.

Lemma rejection_leaves_store_untouched_witness :
  (let db := (serve Counter.rateLimitMiddleware client (burst 10 0) ∅).2 in
   (Counter.rateLimitMiddleware client 0 0 None db).2 = db) ∧
  (let db := (serve Log.rateLimiterMiddleware client (burst 10 0) ∅).2 in
   (Log.rateLimiterMiddleware client 0 0 None db).2 = db).
Proof.
  split; intros db.
  - apply (proj1 (rejection_leaves_store_untouched client 0 0 None) db).
    vm_compute. reflexivity.
  - apply (proj2 (rejection_leaves_store_untouched client 0 0 None) db).
    vm_compute. reflexivity.
Defined.

(** C6, as stated, fails: when the GET comes back with an error the
    invocation neither admits nor rejects; the error object itself leaves the
    callback as an exception. *)
Lemma store_error_is_not_a_decision :
  let err := RedisError "connect ECONNREFUSED 127.0.0.1:6379" in
  (let o := (Counter.rateLimitMiddleware client 0 0 (Some err) ∅).1 in
   admitted o = false ∧ rejected o = false ∧ o = Throw err) ∧
  (let o := (Log.rateLimiterMiddleware client 0 0 (Some err) ∅).1 in
   admitted o = false ∧ rejected o = false ∧ o = Throw err).
Proof. vm_compute. done. Qed.

(** C6, amended: on a GET error both middlewares rethrow the error they were
    handed and write nothing; there is no fallback decision. *)
Theorem store_error_is_rethrown ip asked now e :
  (∀ db, Counter.rateLimitMiddleware ip asked now (Some e) db = (Throw e, db)) ∧
  (∀ db, Log.rateLimiterMiddleware ip asked now (Some e) db = (Throw e, db)).
Proof. split; intros db; reflexivity. Qed.




(** C10: whenever the list limiter writes (it does so exactly when it
    admits), every entry of the written array is stamped after
    [now - rateLimitWindow * 1000]; and if the record read held no entry
    stamped after [now], none of the written ones is.  Without admission the
    store is left as it was. *)
Theorem written_log_is_recent ip asked now link db :
  match Log.rateLimiterMiddleware ip asked now link db with
  | (Next, db') =>
      ∃ written,
        db' = Redis.set_ex ip written Log.rateLimitWindow now db ∧
        Forall (λ e, now - Log.rateLimitWindow * 1000 < Log.timeStamp e) written ∧
        (Forall (λ e, Log.timeStamp e ≤ now) (default [] (Redis.get ip asked db)) →
         Forall (λ e, Log.timeStamp e ≤ now) written)
  | (_, db') => db' = db
  end.
Proof.
  unfold Log.rateLimiterMiddleware, Log.callback, Redis.get_reply.
  destruct link; simpl; [done|].
  destruct (Redis.get ip asked db) as [data|]; simpl.
  - case_bool_decide; simpl; [done|].
    destruct (last _) as [lastRequestLog|] eqn:Hlast; simpl; [|done].
    eexists. split; [done|]. split.
    + apply (LogFacts.log_request_Forall _ _ _ Hlast); simpl.
      * done.
      * unfold Log.rateLimitWindow. lia.
      * eapply Forall_impl; [apply LogFacts.within_recent|]. simpl. lia.
    + intros Hd. apply (LogFacts.log_request_Forall _ _ _ Hlast); simpl.
      * done.
      * lia.
      * by apply LogFacts.within_Forall.
  - eexists. split; [done|]. split.
    + apply Forall_singleton. simpl. unfold Log.rateLimitWindow. lia.
    + intros _. apply Forall_singleton. simpl. lia.
Qed.

Lemma written_log_is_recent_witness :
  let db := (serve Log.rateLimiterMiddleware client [at_ 0; at_ 500; at_ 2000] ∅).2 in
  ∃ written,
    (Log.rateLimiterMiddleware client 60100 60100 None db).2
      = Redis.set_ex client written Log.rateLimitWindow 60100 db ∧
    Forall (λ e, 60100 - Log.rateLimitWindow * 1000 < Log.timeStamp e) written ∧
    Forall (λ e, Log.timeStamp e ≤ 60100) written.
Proof.
  intros db.
  pose proof (written_log_is_recent client 60100 60100 None db) as H.
  destruct (Log.rateLimiterMiddleware client 60100 60100 None db) as [o db'] eqn:E.
  assert (o = Next) as -> by (apply (f_equal fst) in E; vm_compute in E; congruence).
  destruct H as (written & -> & Hlo & Hhi). exists written. split; [done|].
  split; [done|]. apply Hhi.
  apply (bool_decide_unpack _). vm_compute. exact I.
Defined.


(** * Further properties of the limiters *)

Lemma get_ext {V} key now (db1 db2 : gmap string (Redis.slot V)) :
  db1 !! key = db2 !! key → Redis.get key now db1 = Redis.get key now db2.
Proof. unfold Redis.get. by intros ->. Qed.

(** X1: the counter limiter works per address.  What it answers to [ip] and
    the record it leaves for [ip] depend on the record of [ip] alone, and the
    records of all other addresses stay as they were. *)
Theorem counter_per_address ip asked now link db1 db2 :
  db1 !! ip = db2 !! ip →
  (Counter.rateLimitMiddleware ip asked now link db1).1
    = (Counter.rateLimitMiddleware ip asked now link db2).1 ∧
  (Counter.rateLimitMiddleware ip asked now link db1).2 !! ip
    = (Counter.rateLimitMiddleware ip asked now link db2).2 !! ip ∧
  ∀ ip', ip ≠ ip' → (Counter.rateLimitMiddleware ip asked now link db1).2 !! ip' = db1 !! ip'.
Proof.
  intros H. split; [|split]; [| |intros; by apply CounterFacts.counter_other_keys].
  - unfold Counter.rateLimitMiddleware, Counter.callback, Redis.get_reply.
    destruct link; simpl; [done|]. rewrite (get_ext _ _ _ _ H).
    destruct (Redis.get ip asked db2); simpl; [|done]. by case_bool_decide.
  - unfold Counter.rateLimitMiddleware, Counter.callback, Redis.get_reply.
    destruct link; simpl; [done|]. rewrite (get_ext _ _ _ _ H).
    destruct (Redis.get ip asked db2); simpl.
    + case_bool_decide; simpl; [done|]. unfold Redis.incr. rewrite H.
      destruct (db2 !! ip) as [e|]; [destruct (Redis.live now e)|];
        by rewrite !lookup_insert_eq.
    + by rewrite !lookup_set_ex.
Qed.

Lemma counter_per_address_witness :
  let db1 := (serve Counter.rateLimitMiddleware client (burst 3 0) ∅).2 in
  let db2 := (serve Counter.rateLimitMiddleware "198.51.100.4" (burst 10 0) db1).2 in
  (Counter.rateLimitMiddleware client 1000 1000 None db1).1
    = (Counter.rateLimitMiddleware client 1000 1000 None db2).1 ∧
  (Counter.rateLimitMiddleware client 1000 1000 None db1).2 !! client
    = (Counter.rateLimitMiddleware client 1000 1000 None db2).2 !! client ∧
  ∀ ip', client ≠ ip' →
    (Counter.rateLimitMiddleware client 1000 1000 None db1).2 !! ip' = db1 !! ip'.
Proof.
  intros db1 db2. apply (counter_per_address client 1000 1000 None db1 db2).
  vm_compute. reflexivity.
Defined.

(** X2: the list limiter works per address, in the same sense. *)
Theorem log_per_address ip asked now link db1 db2 :
  db1 !! ip = db2 !! ip →
  (Log.rateLimiterMiddleware ip asked now link db1).1
    = (Log.rateLimiterMiddleware ip asked now link db2).1 ∧
  (Log.rateLimiterMiddleware ip asked now link db1).2 !! ip
    = (Log.rateLimiterMiddleware ip asked now link db2).2 !! ip ∧
  ∀ ip', ip ≠ ip' → (Log.rateLimiterMiddleware ip asked now link db1).2 !! ip' = db1 !! ip'.
Proof.
  intros H. split; [|split]; [| |intros; by apply LogFacts.log_other_keys].
  - unfold Log.rateLimiterMiddleware, Log.callback, Redis.get_reply.
    destruct link; simpl; [done|]. rewrite (get_ext _ _ _ _ H).
    destruct (Redis.get ip asked db2); simpl; [|done].
    case_bool_decide; simpl; [done|]. by destruct (last _).
  - unfold Log.rateLimiterMiddleware, Log.callback, Redis.get_reply.
    destruct link; simpl; [done|]. rewrite (get_ext _ _ _ _ H).
    destruct (Redis.get ip asked db2); simpl; [|by rewrite !lookup_set_ex].
    case_bool_decide; simpl; [done|].
    destruct (last _); simpl; [by rewrite !lookup_set_ex|done].
Qed.

Lemma log_per_address_witness :
  let db1 := (serve Log.rateLimiterMiddleware client (burst 3 0) ∅).2 in
  let db2 := (serve Log.rateLimiterMiddleware "198.51.100.4" (burst 10 0) db1).2 in
  (Log.rateLimiterMiddleware client 1000 1000 None db1).1
    = (Log.rateLimiterMiddleware client 1000 1000 None db2).1 ∧
  (Log.rateLimiterMiddleware client 1000 1000 None db1).2 !! client
    = (Log.rateLimiterMiddleware client 1000 1000 None db2).2 !! client ∧
  ∀ ip', client ≠ ip' →
    (Log.rateLimiterMiddleware client 1000 1000 None db1).2 !! ip' = db1 !! ip'.
Proof.
  intros db1 db2. apply (log_per_address client 1000 1000 None db1 db2).
  vm_compute. reflexivity.
Defined.

Lemma counter_keeps_wf ip asked now link db :
  counter_wf ip db → counter_wf ip (Counter.rateLimitMiddleware ip asked now link db).2.
Proof.
  intros HI. pose proof (CounterFacts.counter_cases ip asked now link db) as Hc.
  destruct link; [by rewrite Hc|].
  destruct (Redis.get ip asked db) as [c|].
  - destruct Hc as (e & He & _ & <- & ->). case_bool_decide; simpl; [done|].
    unfold counter_wf in *. rewrite He in HI. unfold Counter.requestLimits in *.
    destruct (Redis.live now e); rewrite lookup_insert_eq; simpl; lia.
  - rewrite Hc. simpl. unfold counter_wf. rewrite lookup_set_ex. simpl.
    unfold Counter.requestLimits. lia.
Qed.

(** X3: in the counter limiter, served one request after the other, the
    stored counter never leaves the range from 1 to [requestLimits]:
    whatever the instants of the GETs and callbacks and the link failures of
    the requests, it is never bumped past the limit. *)
Theorem counter_stays_in_range ip reqs db :
  counter_wf ip db → counter_wf ip (serve Counter.rateLimitMiddleware ip reqs db).2.
Proof.
  intros HI.
  apply (serve_preserves Counter.rateLimitMiddleware ip (λ _, True) (counter_wf ip));
    [|by apply Forall_true|done].
  intros. by apply counter_keeps_wf.
Qed.

Lemma counter_stays_in_range_witness :
  counter_wf client
    (serve Counter.rateLimitMiddleware client
       (burst 14 0 ++ [Arrival 10 10 (Some (RedisError "timeout"));
                       Arrival 59999 60001 None] ++ burst 12 70000) ∅).2.
Proof. apply counter_stays_in_range. exact I. Defined.

Lemma length_le_total l :
  Forall (λ x, 1 ≤ Log.requestCount x) l → Z.of_nat (length l) ≤ Log.total l.
Proof.
  induction 1 as [|x l Hx _ IH]; [done|].
  rewrite LogFacts.total_cons. simpl length. lia.
Qed.

Lemma log_keeps_wf ip asked now link db :
  log_wf ip db → log_wf ip (Log.rateLimiterMiddleware ip asked now link db).2.
Proof.
  intros HI. unfold Log.rateLimiterMiddleware, Log.callback, Redis.get_reply.
  destruct link; simpl; [done|].
  destruct (Redis.get ip asked db) as [data|] eqn:Hg; simpl.
  - case_bool_decide as Ht; simpl; [done|].
    destruct (last _) as [lastRequestLog|] eqn:Hlast; simpl; [|done].
    apply get_Some in Hg as (e & He & _ & <-).
    unfold log_wf in *. rewrite He in HI. destruct HI as (_ & Hc & _ & _).
    rewrite lookup_set_ex. simpl. split; [|split; [|split]].
    + destruct (LogFacts.log_request_last now _ _ Hlast) as [x Hx].
      intros E. by rewrite E in Hx.
    + apply (LogFacts.log_request_Forall _ _ _ Hlast); simpl; [lia|lia|].
      by apply LogFacts.within_Forall.
    + rewrite (LogFacts.log_request_total _ _ _ Hlast). lia.
    + by eexists.
  - unfold log_wf. rewrite lookup_set_ex. simpl.
    split; [done|]. split; [by apply Forall_singleton|].
    split; [by vm_compute|by eexists].
Qed.

(** X4: in the list limiter, served one request after the other, the stored
    log stays well-formed (not empty, every entry counting at least one
    request, the counts adding up to [maxRequests] at most, expiry set), so
    it never holds more than [maxRequests] entries. *)
Theorem log_stays_bounded ip reqs db :
  log_wf ip db →
  let db' := (serve Log.rateLimiterMiddleware ip reqs db).2 in
  log_wf ip db' ∧
  ∀ e, db' !! ip = Some e → Z.of_nat (length (Redis.value e)) ≤ Log.maxRequests.
Proof.
  intros HI db'.
  assert (log_wf ip db') as Hwf.
  { apply (serve_preserves Log.rateLimiterMiddleware ip (λ _, True) (log_wf ip));
      [|by apply Forall_true|done].
    intros. by apply log_keeps_wf. }
  split; [done|]. intros e He. unfold log_wf in Hwf. rewrite He in Hwf.
  destruct Hwf as (_ & Hc & Ht & _). pose proof (length_le_total _ Hc). lia.
Qed.

Lemma log_stays_bounded_witness :
  let db' := (serve Log.rateLimiterMiddleware client
                [at_ 0; at_ 500; at_ 2000; at_ 9000; at_ 9100; at_ 61000; at_ 62500] ∅).2 in
  log_wf client db' ∧
  ∀ e, db' !! client = Some e → Z.of_nat (length (Redis.value e)) ≤ Log.maxRequests.
Proof. apply log_stays_bounded. exact I. Defined.

(** X5: the list limiter can lose its only entry while the record lives.  On
    a key without live record, a first request at [t0] opens an entry
    stamped [t0]; a second one less than a second later is counted in that
    entry and renews the expiry.  Every request whose GET is answered while
    the renewed record lives and whose callback runs at [t0] plus the window
    or later then finds nothing left in the window and throws a [TypeError];
    the store is not written, so this lasts until the record expires. *)
Theorem log_stale_record_throws ip db t0 t1 asked t :
  Redis.get ip t0 db = None →
  t0 < t1 < t0 + 1000 →
  t0 + Log.rateLimitWindow * 1000 ≤ t →
  asked ≤ t1 + Log.rateLimitWindow * 1000 →
  ∃ msg db2,
    serve Log.rateLimiterMiddleware ip [at_ t0; at_ t1] db = ([Next; Next], db2) ∧
    Log.rateLimiterMiddleware ip asked t None db2 = (Throw (TypeError msg), db2).
Proof.
  unfold Log.rateLimitWindow. intros Hg H1 Ht Ha.
  set (db1 := Redis.set_ex ip [Log.Entry t0 1] Log.rateLimitWindow t0 db).
  set (db2 := Redis.set_ex ip [Log.Entry t0 2] Log.rateLimitWindow t1 db1).
  assert (Log.rateLimiterMiddleware ip t1 t1 None db1 = (Next, db2)) as Hstep.
  { assert (Redis.get ip t1 db1 = Some [Log.Entry t0 1]) as Hg1.
    { apply get_Some. eexists. split; [apply lookup_set_ex|]. split; [|done].
      simpl. apply bool_decide_eq_true_2. unfold Log.rateLimitWindow. lia. }
    assert (Log.within (t1 - Log.rateLimitWindow * 1000) [Log.Entry t0 1]
            = [Log.Entry t0 1]) as Hw.
    { apply LogFacts.within_keeps, Forall_singleton. simpl.
      unfold Log.rateLimitWindow. lia. }
    rewrite (LogFacts.log_room _ _ _ _ _ (Log.Entry t0 1) Hg1); rewrite Hw; try done.
    unfold Log.log_request. simpl. rewrite bool_decide_eq_true_2 by lia. done. }
  destruct (LogFacts.log_stale ip asked t db2 [Log.Entry t0 2]) as [msg Hthrow].
  - apply get_Some. eexists. split; [apply lookup_set_ex|]. split; [|done].
    simpl. apply bool_decide_eq_true_2. unfold Log.rateLimitWindow. lia.
  - unfold Log.within. rewrite filter_cons. case_decide as Hin; [|done].
    simpl in Hin. unfold Log.rateLimitWindow in Hin. lia.
  - exists msg, db2. split; [|done].
    unfold at_. simpl. rewrite (LogFacts.log_fresh _ _ _ _ Hg). fold db1.
    by rewrite Hstep.
Qed.

Lemma log_stale_record_throws_witness :
  ∃ msg db2,
    serve Log.rateLimiterMiddleware client [at_ 5000; at_ 5400] ∅ = ([Next; Next], db2) ∧
    Log.rateLimiterMiddleware client 65100 65100 None db2 = (Throw (TypeError msg), db2).
Proof.
  apply (log_stale_record_throws client ∅ 5000 5400 65100 65100);
    [reflexivity | lia | unfold Log.rateLimitWindow; lia
     | unfold Log.rateLimitWindow; lia].
Defined.

(** * Requests in flight together, in general *)

Lemma finished_admitted_all {V} n :
  finished_admitted (replicate n (@Finished V Next)) = n.
Proof.
  unfold finished_admitted. induction n as [|n IH]; [done|].
  cbn [replicate]. rewrite filter_cons_True by done. cbn [length]. by rewrite IH.
Qed.

Lemma replicate_turn {A} k m (x y : A) :
  (replicate k x ++ replicate (S m) y) !! k = Some y ∧
  <[k := x]> (replicate k x ++ replicate (S m) y) = replicate (S k) x ++ replicate m y.
Proof.
  split.
  - rewrite lookup_app_r by (rewrite length_replicate; lia).
    rewrite length_replicate, Nat.sub_diag. done.
  - rewrite insert_app_r_alt by (rewrite length_replicate; lia).
    rewrite length_replicate, Nat.sub_diag.
    by rewrite (replicate_S_end k x), <- app_assoc.
Qed.

Section InFlight.
Context {V : Type}.
Variable callback : string → Z → option exn → option V →
  gmap string (Redis.slot V) → outcome * gmap string (Redis.slot V).
Variables (ip : string) (now : Z).

(** One phase of a schedule: the tasks in state [B] are advanced in turn,
    each moving to [A] and changing the store by [g], while [Q] holds. *)
Lemma phase (A B : task V) (g : gmap string (Redis.slot V) → gmap string (Redis.slot V))
    (Q : gmap string (Redis.slot V) → Prop) :
  (∀ tasks i db, Q db → tasks !! i = Some B →
     advance callback ip now i (tasks, db) = (<[i := A]> tasks, g db) ∧ Q (g db)) →
  ∀ m k db, Q db →
    foldl (λ c i, advance callback ip now i c) (replicate k A ++ replicate m B, db) (seq k m)
      = (replicate (k + m) A, Nat.iter m g db).
Proof.
  intros Hstep m. induction m as [|m IH]; intros k db HQ.
  - simpl. by rewrite app_nil_r, Nat.add_0_r.
  - destruct (replicate_turn k m A B) as [Hl Hi].
    destruct (Hstep _ k db HQ Hl) as [Hadv HQ'].
    cbn [seq foldl]. rewrite Hadv, Hi, (IH (S k) (g db) HQ').
    rewrite Nat.iter_succ_r. f_equal. f_equal. lia.
Qed.

(** All GETs are answered before the first callback runs; every callback
    then sees the same reply, admits, and changes the store by [f]. *)
Lemma all_read_first n db f :
  (∀ db', callback ip now None (Redis.get ip now db) db' = (Next, f db')) →
  interleave callback ip now (seq 0 n ++ seq 0 n) (replicate n Queued, db)
    = (replicate n (Finished Next), Nat.iter n f db).
Proof.
  intros Hcb. unfold interleave. rewrite foldl_app.
  pose proof (phase (Replied None (Redis.get ip now db)) Queued id (λ db', db' = db)) as P1.
  pose proof (phase (Finished Next) (Replied None (Redis.get ip now db)) f (λ _, True)) as P2.
  specialize (P1 ltac:(intros tasks i db' -> Hi; split; [|done];
                       unfold advance; by rewrite Hi) n 0%nat db eq_refl).
  specialize (P2 ltac:(intros tasks i db' _ Hi; split; [|done];
                       unfold advance; rewrite Hi; by rewrite Hcb) n 0%nat db I).
  cbn [replicate app Nat.add] in P1, P2. rewrite P1.
  replace (Nat.iter n id db) with db by (clear; induction n as [|n IH]; simpl; [done|by rewrite <- IH]).
  exact P2.
Qed.
End InFlight.

Lemma iter_set_ex {V} ip (v : V) n now k (db : gmap string (Redis.slot V)) :
  Nat.iter (S k) (Redis.set_ex ip v n now) db !! ip
    = Some (Redis.Slot v (Some (now + n * 1000))).
Proof. simpl. apply lookup_set_ex. Qed.

Lemma iter_incr ip now k (db : gmap string (Redis.slot Z)) e :
  db !! ip = Some e → Redis.live now e = true →
  Nat.iter k (Redis.incr ip now) db !! ip
    = Some (Redis.Slot (Redis.value e + Z.of_nat k) (Redis.deadline e)).
Proof.
  intros He Hl. induction k as [|k IH].
  - simpl. rewrite He. destruct e. simpl. do 2 f_equal. lia.
  - simpl. rewrite (lookup_incr_live _ _ _ _ IH Hl), lookup_insert_eq. simpl.
    do 2 f_equal. lia.
Qed.





(** * The story controller *)

Section StoriesFacts.
Context {V : Type}.
Variable parseInt : string → option Z.
Implicit Types stories : list (Stories.story V).

Lemma ids_app stories1 stories2 :
  Stories.ids (stories1 ++ stories2) = Stories.ids stories1 ++ Stories.ids stories2.
Proof. unfold Stories.ids. apply fmap_app. Qed.

(** The first story with the id wanted, and what lies before and after it. *)
Lemma findIndex_hit k stories :
  k ∈ Stories.ids stories →
  ∃ before s after,
    stories = before ++ s :: after ∧ Stories.id s = k ∧ (k ∉ Stories.ids before) ∧
    Stories.findIndex (Some k) stories = Some (length before, s).
Proof.
  intros (y & Hy & Hin)%list_elem_of_fmap.
  destruct (list_find_elem_of (λ s, Some (Stories.id s) = Some k) stories y Hin)
    as [[i s] Hfind]; [by rewrite Hy|].
  pose proof Hfind as (Hi & HP & Hleast)%list_find_Some.
  assert (i < length stories)%nat as Hlt by (by eapply lookup_lt_Some).
  exists (take i stories), s, (drop (S i) stories).
  split; [by rewrite take_drop_middle|]. split; [congruence|]. split.
  - intros (z & Hz & (j & Hj & Hji)%elem_of_take)%list_elem_of_fmap.
    apply (Hleast j z Hj Hji). by rewrite Hz.
  - unfold Stories.findIndex. rewrite Hfind, length_take. do 2 f_equal. lia.
Qed.

Lemma findIndex_miss wanted stories :
  (∀ k, wanted = Some k → k ∉ Stories.ids stories) →
  Stories.findIndex wanted stories = None.
Proof.
  intros Hmiss. apply list_find_None, Forall_forall. intros s Hs Heq.
  apply (Hmiss (Stories.id s)); [done|]. by apply list_elem_of_fmap_2.
Qed.

Lemma insert_middle {A} (l1 l2 : list A) x y :
  <[length l1 := y]> (l1 ++ x :: l2) = l1 ++ y :: l2.
Proof. rewrite insert_app_r_alt by lia. by rewrite Nat.sub_diag. Qed.

Lemma update_keeps_ids idParam t c stories :
  Stories.ids (Stories.updateStory parseInt idParam t c stories).2 = Stories.ids stories.
Proof.
  unfold Stories.updateStory.
  destruct (Stories.findIndex _ stories) as [[i old]|] eqn:Hfind; [|done].
  apply list_find_Some in Hfind as (Hi & _ & _). simpl. unfold Stories.ids.
  rewrite list_fmap_insert. simpl. apply list_insert_id.
  by rewrite list_lookup_fmap, Hi.
Qed.

Lemma update_keeps_length idParam t c stories :
  length (Stories.updateStory parseInt idParam t c stories).2 = length stories.
Proof.
  unfold Stories.updateStory.
  destruct (Stories.findIndex _ stories) as [[i old]|]; [|done].
  simpl. apply length_insert.
Qed.

Lemma update_miss idParam t c stories :
  (∀ k, parseInt idParam = Some k → k ∉ Stories.ids stories) →
  Stories.updateStory parseInt idParam t c stories
    = (Stories.Send 404 (Some "Story not found"), stories).
Proof. intros Hmiss. unfold Stories.updateStory. by rewrite findIndex_miss. Qed.

Lemma delete_miss idParam stories :
  (∀ k, parseInt idParam = Some k → k ∉ Stories.ids stories) →
  Stories.deleteStory parseInt idParam stories
    = (Stories.Send 404 (Some "Story not found"), stories).
Proof. intros Hmiss. unfold Stories.deleteStory. by rewrite findIndex_miss. Qed.

Lemma update_hit idParam t c k stories :
  parseInt idParam = Some k → k ∈ Stories.ids stories →
  ∃ before old after,
    stories = before ++ old :: after ∧ Stories.id old = k ∧
    (k ∉ Stories.ids before) ∧
    Stories.updateStory parseInt idParam t c stories
      = (Stories.SendJson 200 (Stories.Story k t c),
         before ++ Stories.Story k t c :: after).
Proof.
  intros Hp Hk.
  destruct (findIndex_hit k stories Hk) as (before & old & after & -> & Hid & Hb & Hf).
  exists before, old, after. repeat split; try done.
  unfold Stories.updateStory. rewrite Hp, Hf, Hid. simpl. by rewrite insert_middle.
Qed.

Lemma delete_hit idParam k stories :
  parseInt idParam = Some k → k ∈ Stories.ids stories →
  ∃ before old after,
    stories = before ++ old :: after ∧ Stories.id old = k ∧
    (k ∉ Stories.ids before) ∧
    Stories.deleteStory parseInt idParam stories
      = (Stories.Send 204 None, before ++ after).
Proof.
  intros Hp Hk.
  destruct (findIndex_hit k stories Hk) as (before & old & after & -> & Hid & Hb & Hf).
  exists before, old, after. repeat split; try done.
  unfold Stories.deleteStory. rewrite Hp, Hf. simpl. by rewrite delete_middle.
Qed.

Lemma create_numbered t c stories :
  Stories.numbered stories → Stories.numbered (Stories.createStory t c stories).2.
Proof.
  unfold Stories.numbered, Stories.createStory. simpl. intros Hn.
  rewrite ids_app, Hn, length_app. simpl.
  rewrite Nat.add_1_r, seq_S, fmap_app. done.
Qed.

Lemma dispatch_numbered call stories :
  Stories.is_delete call = false → Stories.numbered stories →
  Stories.numbered (Stories.dispatch parseInt call stories).2.
Proof.
  destruct call as [t c|idParam t c|idParam]; simpl; intros Hd Hn; [| |done].
  - by apply create_numbered.
  - unfold Stories.numbered. by rewrite update_keeps_ids, update_keeps_length.
Qed.

Lemma perform_cons call calls stories :
  Stories.perform parseInt (call :: calls) stories =
    let r := Stories.dispatch parseInt call stories in
    let rest := Stories.perform parseInt calls r.2 in
    (r.1 :: rest.1, rest.2).
Proof.
  simpl. destruct (Stories.dispatch parseInt call stories) as [r stories'].
  simpl. by destruct (Stories.perform parseInt calls stories').
Qed.

Lemma numbered_NoDup stories : Stories.numbered stories → NoDup (Stories.ids stories).
Proof.
  intros ->. apply NoDup_fmap_2_strong; [|apply NoDup_seq]. intros; lia.
Qed.

Lemma numbered_elem k stories :
  Stories.numbered stories →
  k ∈ Stories.ids stories ↔ 1 ≤ k ≤ Z.of_nat (length stories).
Proof.
  intros ->. rewrite list_elem_of_fmap. split.
  - intros (i & -> & Hi%elem_of_seq). lia.
  - intros Hk. exists (Z.to_nat (k - 1)). split; [lia|]. apply elem_of_seq. lia.
Qed.
End StoriesFacts.

(** X8: as long as nothing is deleted, the stories are numbered 1, 2, ... in
    array order, so no two share an id.  Starting from such an array (the
    empty one is), any sequence of creations and updates keeps it so. *)
Theorem ids_numbered_without_delete {V} (parseInt : string → option Z)
    (calls : list (Stories.call V)) (stories : list (Stories.story V)) :
  Stories.numbered stories →
  Forall (λ c, Stories.is_delete c = false) calls →
  Stories.numbered (Stories.perform parseInt calls stories).2 ∧
  NoDup (Stories.ids (Stories.perform parseInt calls stories).2).
Proof.
  intros Hn Hc.
  assert (Stories.numbered (Stories.perform parseInt calls stories).2) as H.
  { revert stories Hn. induction Hc as [|c calls Hd _ IH]; intros stories Hn; [done|].
    rewrite perform_cons. simpl. apply IH. by apply dispatch_numbered. }
  split; [done|by apply numbered_NoDup].
Qed.

Lemma ids_numbered_without_delete_witness :
  let calls := [Stories.Post "a" "x"; Stories.Post "b" "y"; Stories.Put "1" "c" "z";
                Stories.Put "7" "d" "w"; Stories.Post "e" "v"] in
  Stories.numbered (Stories.perform decimal calls []).2 ∧
  NoDup (Stories.ids (Stories.perform decimal calls []).2).
Proof.
  intros calls. apply (ids_numbered_without_delete decimal calls []).
  - reflexivity.
  - apply (bool_decide_unpack _). vm_compute. exact I.
Defined.

(** X9: [updateStory] answers 404 and changes nothing when no story has the
    id parsed from the request (in particular when it parses to NaN).
    Otherwise it rewrites the first story with that id, and only that one:
    title and content are replaced, the id and the position are kept, and the
    updated story is sent back. *)
Theorem update_replaces_first {V} (parseInt : string → option Z) idParam (t c : V)
    (stories : list (Stories.story V)) :
  ((∀ k, parseInt idParam = Some k → k ∉ Stories.ids stories) →
     Stories.updateStory parseInt idParam t c stories
       = (Stories.Send 404 (Some "Story not found"), stories)) ∧
  (∀ k, parseInt idParam = Some k → k ∈ Stories.ids stories →
     ∃ before old after,
       stories = before ++ old :: after ∧ Stories.id old = k ∧
       (k ∉ Stories.ids before) ∧
       Stories.updateStory parseInt idParam t c stories
         = (Stories.SendJson 200 (Stories.Story k t c),
            before ++ Stories.Story k t c :: after)).
Proof.
  split.
  - apply update_miss.
  - intros k. apply update_hit.
Qed.

Lemma update_replaces_first_witness :
  let stories := (Stories.perform decimal
                    [Stories.Post "a" "x"; Stories.Post "b" "y"; Stories.Post "c" "z"] []).2 in
  Stories.updateStory decimal "two" "B" "Y" stories
    = (Stories.Send 404 (Some "Story not found"), stories) ∧
  ∃ before old after,
    stories = before ++ old :: after ∧ Stories.id old = 2 ∧
    (2 ∉ Stories.ids before) ∧
    Stories.updateStory decimal "2" "B" "Y" stories
      = (Stories.SendJson 200 (Stories.Story 2 "B" "Y"),
         before ++ Stories.Story 2 "B" "Y" :: after).
Proof.
  intros stories. split.
  - apply (proj1 (update_replaces_first decimal "two" "B" "Y" stories)).
    intros k Hk. vm_compute in Hk. discriminate.
  - apply (proj2 (update_replaces_first decimal "2" "B" "Y" stories) 2); [reflexivity|].
    apply (bool_decide_unpack _). vm_compute. exact I.
Defined.

(** X10: [deleteStory] answers 404 and changes nothing when no story has the
    id parsed from the request.  Otherwise it answers 204 and removes the
    first story with that id, and only that one. *)
Theorem delete_removes_first {V} (parseInt : string → option Z) idParam
    (stories : list (Stories.story V)) :
  ((∀ k, parseInt idParam = Some k → k ∉ Stories.ids stories) →
     Stories.deleteStory parseInt idParam stories
       = (Stories.Send 404 (Some "Story not found"), stories)) ∧
  (∀ k, parseInt idParam = Some k → k ∈ Stories.ids stories →
     ∃ before old after,
       stories = before ++ old :: after ∧ Stories.id old = k ∧
       (k ∉ Stories.ids before) ∧
       Stories.deleteStory parseInt idParam stories
         = (Stories.Send 204 None, before ++ after)).
Proof.
  split.
  - apply delete_miss.
  - intros k. apply delete_hit.
Qed.

Lemma delete_removes_first_witness :
  let stories := (Stories.perform decimal
                    [Stories.Post "a" "x"; Stories.Post "b" "y"; Stories.Post "c" "z"] []).2 in
  Stories.deleteStory decimal "9" stories
    = (Stories.Send 404 (Some "Story not found"), stories) ∧
  ∃ before old after,
    stories = before ++ old :: after ∧ Stories.id old = 2 ∧
    (2 ∉ Stories.ids before) ∧
    Stories.deleteStory decimal "2" stories = (Stories.Send 204 None, before ++ after).
Proof.
  intros stories. split.
  - apply (proj1 (delete_removes_first decimal "9" stories)).
    intros k Hk. vm_compute in Hk. injection Hk as <-.
    apply (bool_decide_unpack _). vm_compute. exact I.
  - apply (proj2 (delete_removes_first decimal "2" stories) 2); [reflexivity|].
    apply (bool_decide_unpack _). vm_compute. exact I.
Defined.

(** X11: when no two stories share an id, a deleted story is gone: after
    [deleteStory], deleting or updating the same id again is answered 404 and
    changes nothing. *)
Theorem deleted_story_not_found {V} (parseInt : string → option Z) idParam (t c : V)
    (stories : list (Stories.story V)) :
  NoDup (Stories.ids stories) →
  let stories' := (Stories.deleteStory parseInt idParam stories).2 in
  Stories.deleteStory parseInt idParam stories'
    = (Stories.Send 404 (Some "Story not found"), stories') ∧
  Stories.updateStory parseInt idParam t c stories'
    = (Stories.Send 404 (Some "Story not found"), stories').
Proof.
  intros Hnd stories'.
  assert (∀ k, parseInt idParam = Some k → k ∉ Stories.ids stories') as Hmiss.
  { intros k Hp. destruct (decide (k ∈ Stories.ids stories)) as [Hk|Hk].
    - destruct (delete_hit parseInt idParam k stories Hp Hk)
        as (before & old & after & -> & Hid & Hb & Hdel).
      subst stories'. rewrite Hdel. simpl.
      rewrite ids_app in *. unfold Stories.ids in Hnd at 2. simpl in Hnd.
      apply NoDup_app in Hnd as (_ & _ & Hnd). apply NoDup_cons in Hnd as [Hnd _].
      rewrite Hid in Hnd. rewrite elem_of_app. tauto.
    - subst stories'. rewrite delete_miss; [done|].
      intros k' Hp'. congruence. }
  split.
  - by apply delete_miss.
  - by apply update_miss.
Qed.

Lemma deleted_story_not_found_witness :
  let stories := (Stories.perform decimal
                    [Stories.Post "a" "x"; Stories.Post "b" "y"; Stories.Post "c" "z"] []).2 in
  let stories' := (Stories.deleteStory decimal "2" stories).2 in
  Stories.deleteStory decimal "2" stories'
    = (Stories.Send 404 (Some "Story not found"), stories') ∧
  Stories.updateStory decimal "2" "B" "Y" stories'
    = (Stories.Send 404 (Some "Story not found"), stories').
Proof.
  intros stories. apply (deleted_story_not_found decimal "2" "B" "Y" stories).
  apply (bool_decide_unpack _). vm_compute. exact I.
Defined.

(** X12: ids are reused after a deletion.  In an array numbered 1 to [n],
    deleting any story but the last and then creating one gives the new
    story the id [n], which the last of the old stories still carries: two
    stories share an id. *)
Theorem id_reused_after_delete {V} (parseInt : string → option Z) idParam k (t c : V)
    (stories : list (Stories.story V)) :
  Stories.numbered stories →
  parseInt idParam = Some k →
  1 ≤ k < Z.of_nat (length stories) →
  let n := Z.of_nat (length stories) in
  let stories' := (Stories.deleteStory parseInt idParam stories).2 in
  (Stories.deleteStory parseInt idParam stories).1 = Stories.Send 204 None ∧
  n ∈ Stories.ids stories' ∧
  Stories.createStory t c stories'
    = (Stories.SendJson 201 (Stories.Story n t c), stories' ++ [Stories.Story n t c]) ∧
  ¬ NoDup (Stories.ids (Stories.createStory t c stories').2).
Proof.
  intros Hn Hp Hk n stories'.
  assert (k ∈ Stories.ids stories) as Hin by (apply numbered_elem; [done|lia]).
  assert (n ∈ Stories.ids stories) as Hlast by (apply numbered_elem; [done|lia]).
  destruct (delete_hit parseInt idParam k stories Hp Hin)
    as (before & old & after & E & Hid & Hb & Hdel).
  subst stories'. rewrite Hdel. simpl.
  assert (n ∈ Stories.ids (before ++ after)) as Hn'.
  { rewrite E, ids_app, elem_of_app in Hlast. unfold Stories.ids in Hlast at 2.
    simpl in Hlast. rewrite elem_of_cons in Hlast.
    rewrite ids_app, elem_of_app. unfold n in *. destruct Hlast as [?|[?|?]]; [tauto|lia|tauto]. }
  assert (Z.of_nat (length (before ++ after)) + 1 = n) as Hlen.
  { unfold n. rewrite E, !length_app. simpl. lia. }
  split; [done|]. split; [done|]. unfold Stories.createStory. rewrite Hlen.
  split; [done|]. simpl. rewrite ids_app. intros (_ & Hdisj & _)%NoDup_app.
  apply (Hdisj n Hn'). unfold Stories.ids. simpl. apply list_elem_of_singleton. done.
Qed.

Lemma id_reused_after_delete_witness :
  let stories := (Stories.perform decimal
                    [Stories.Post "a" "x"; Stories.Post "b" "y"; Stories.Post "c" "z"] []).2 in
  let n := Z.of_nat (length stories) in
  let stories' := (Stories.deleteStory decimal "1" stories).2 in
  (Stories.deleteStory decimal "1" stories).1 = Stories.Send 204 None ∧
  n ∈ Stories.ids stories' ∧
  Stories.createStory "d" "w" stories'
    = (Stories.SendJson 201 (Stories.Story n "d" "w"),
       stories' ++ [Stories.Story n "d" "w"]) ∧
  ¬ NoDup (Stories.ids (Stories.createStory "d" "w" stories').2).
Proof.
  intros stories.
  apply (id_reused_after_delete decimal "1" 1 "d" "w" stories);
    [reflexivity | reflexivity | vm_compute; split; [discriminate|reflexivity]].
Defined.

(** X13: a story just created can be addressed by the id sent back, provided
    no older story carries that id: updating that id rewrites the new story
    and no other, and deleting it gives back the array as it was before the
    creation. *)
Theorem created_story_is_addressable {V} (parseInt : string → option Z) idParam
    (t c t' c' : V) (stories : list (Stories.story V)) :
  let n := Z.of_nat (length stories) + 1 in
  parseInt idParam = Some n →
  n ∉ Stories.ids stories →
  Stories.updateStory parseInt idParam t' c' (Stories.createStory t c stories).2
    = (Stories.SendJson 200 (Stories.Story n t' c'), stories ++ [Stories.Story n t' c']) ∧
  Stories.deleteStory parseInt idParam (Stories.createStory t c stories).2
    = (Stories.Send 204 None, stories).
Proof.
  intros n Hp Hfresh.
  assert (Stories.findIndex (Some n) (stories ++ [Stories.Story n t c])
          = Some (length stories, Stories.Story n t c)) as Hf.
  { unfold Stories.findIndex. apply list_find_Some. split; [|split; [done|]].
    - rewrite lookup_app_r by lia. by rewrite Nat.sub_diag.
    - intros j y Hj Hlt [= Hy]. apply Hfresh. rewrite <- Hy.
      apply list_elem_of_fmap_2, (list_elem_of_lookup_2 _ j).
      by rewrite lookup_app_l in Hj. }
  unfold Stories.updateStory, Stories.deleteStory, Stories.createStory. simpl.
  fold n. rewrite Hp, Hf. simpl. split.
  - by rewrite insert_middle.
  - by rewrite delete_middle, app_nil_r.
Qed.

Lemma created_story_is_addressable_witness :
  let stories := (Stories.perform decimal
                    [Stories.Post "a" "x"; Stories.Post "b" "y"] []).2 in
  Stories.updateStory decimal "3" "C" "Z" (Stories.createStory "c" "z" stories).2
    = (Stories.SendJson 200 (Stories.Story 3 "C" "Z"), stories ++ [Stories.Story 3 "C" "Z"]) ∧
  Stories.deleteStory decimal "3" (Stories.createStory "c" "z" stories).2
    = (Stories.Send 204 None, stories).
Proof.
  intros stories.
  apply (created_story_is_addressable decimal "3" "c" "z" "C" "Z" stories); [reflexivity|].
  apply (bool_decide_unpack _). vm_compute. exact I.
Defined.

(** * The limiter in front of the controller *)

Lemma handled_cons {Reply} (r : response Reply) rs :
  handled (r :: rs) = ((if is_handled r then 1 else 0) + handled rs)%nat.
Proof.
  unfold handled. destruct (is_handled r) eqn:E.
  - by rewrite filter_cons_True.
  - rewrite filter_cons_False; [done|congruence].
Qed.

Section RouteFacts.
Context {Store App Call Reply : Type}.
Variable middleware : string → Z → Z → option exn → Store → outcome * Store.
Variable controller : Call → App → Reply * App.
Variable ip : string.

Lemma visit_cons r c reqs st :
  visit middleware controller ip ((r, c) :: reqs) st =
    let x := route middleware controller ip (asked r) (clock r) (link r) c st in
    let rest := visit middleware controller ip reqs x.2 in
    (x.1 :: rest.1, rest.2).
Proof.
  simpl. destruct (route middleware controller ip (asked r) (clock r) (link r) c st) as [x st'].
  simpl. by destruct (visit middleware controller ip reqs st').
Qed.

(** A request reaches the controller exactly when the limiter admits it, and
    the limiter's store evolves as if the controller were not there. *)
Lemma route_limiter asked now link c db app :
  let x := route middleware controller ip asked now link c (db, app) in
  let m := middleware ip asked now link db in
  is_handled x.1 = admitted m.1 ∧ x.2.1 = m.2 ∧
  (admitted m.1 = true → x.2.2 = (controller c app).2) ∧
  (admitted m.1 = false → x.2.2 = app).
Proof.
  unfold route. simpl. destruct (middleware ip asked now link db) as [o db'].
  destruct o; simpl; try done.
  destruct (controller c app) as [r app']. done.
Qed.

Lemma visit_limiter reqs : ∀ db app,
  let v := visit middleware controller ip reqs (db, app) in
  let m := serve middleware ip reqs.*1 db in
  handled v.1 = admissions m.1 ∧ v.2.1 = m.2.
Proof.
  induction reqs as [|[r c] reqs IH]; intros db app; [done|].
  cbv zeta. rewrite fmap_cons, serve_cons, visit_cons. cbv zeta. cbn [fst snd].
  destruct (route_limiter (asked r) (clock r) (link r) c db app) as (Hh & Hdb & _ & _).
  destruct (route middleware controller ip (asked r) (clock r) (link r) c (db, app))
    as [x [db' app']]. cbn [fst snd] in *. subst db'.
  destruct (IH (middleware ip (asked r) (clock r) (link r) db).2 app') as [IHh IHdb].
  rewrite handled_cons, admissions_cons, Hh, IHh. done.
Qed.

(** If a call makes the application state grow by one at most, a visit makes
    it grow by the number of requests handled at most. *)
Lemma visit_grows (size : App → nat) :
  (∀ c app, (size (controller c app).2 ≤ size app + 1)%nat) →
  ∀ reqs db app,
    let v := visit middleware controller ip reqs (db, app) in
    (size v.2.2 ≤ size app + handled v.1)%nat.
Proof.
  intros Hsize reqs. induction reqs as [|[r c] reqs IH]; intros db app; [simpl; lia|].
  cbv zeta. rewrite visit_cons. cbv zeta. cbn [fst snd].
  destruct (route_limiter (asked r) (clock r) (link r) c db app) as (Hh & _ & Hadm & Hrej).
  destruct (route middleware controller ip (asked r) (clock r) (link r) c (db, app))
    as [x [db' app']]. cbn [fst snd] in *.
  specialize (IH db' app'). cbv zeta in IH. rewrite handled_cons.
  destruct (admitted (middleware ip (asked r) (clock r) (link r) db).1); rewrite Hh.
  - rewrite (Hadm eq_refl) in *. specialize (Hsize c app). lia.
  - rewrite (Hrej eq_refl) in *. lia.
Qed.
End RouteFacts.

Lemma dispatch_grows {V} (parseInt : string → option Z) (c : Stories.call V) stories :
  (length (Stories.dispatch parseInt c stories).2 ≤ length stories + 1)%nat.
Proof.
  destruct c as [t c|idParam t c|idParam]; simpl.
  - rewrite length_app. simpl. lia.
  - rewrite update_keeps_length. lia.
  - unfold Stories.deleteStory.
    destruct (Stories.findIndex _ stories) as [[i old]|] eqn:Hf; simpl; [|lia].
    apply list_find_Some in Hf as (Hi & _ & _).
    rewrite length_delete by eauto. lia.
Qed.




